(** * The poll loop of the TooGoodToGo watcher ([src/lib/poller.js])

    A shallow embedding of the poller: the interval policy
    ([getRandomPollingIntervalInMs]), the HTTP 403 backoff tracker held in the
    closure of [pollLoopWith403Backoff$], the output pipeline of the loop, the
    [switchMap] that gates the loop on the enable signal, and the two periodic
    side-effect timers.

    Modelling conventions.
    - A JavaScript number is [NaN], an infinity or a finite rational.  Every
      finite double is a rational, and [Math.max], [Math.floor], [Math.ceil],
      [Math.trunc] and the comparisons are exact on doubles.  Sums, differences
      and products are taken exactly: the instants and durations of the loop
      are integer milliseconds far below 2^53, where double arithmetic is
      exact.  Negative zero is identified with zero.
    - A string is UTF-8 text.
    - Instants ([Date.now()]) and the truncated backoff settings are integers
      ([Z]).
    - The external promises ([listFavoriteBusinesses], [login],
      [updateAppVersion]), the clock and [Math.random] are inputs of the
      model: a poll cycle is handed the outcome of its fetch, the instant
      [now] and the random draw. *)

From Stdlib Require Import ZArith QArith Qround Qminmax Qabs Qpower Qcanon Ascii String Sorted.
From stdpp Require Import gmap strings list.

Local Open Scope Z_scope.

(* ====================================================================== *)
(** ** JavaScript values                                                   *)
(* ====================================================================== *)

Module Js.

Inductive Num : Type :=
| NaN
| Infinity (negative : bool)
| Finite (q : Q).

#[warnings="-register-all"]
Inductive Value : Type :=
| Undefined
| Null
| Bool (b : bool)
| Number (n : Num)
| Str (s : string)
| Array (elems : list Value)
| Object (props : list (string * Value)).

Definition num (z : Z) : Value := Number (Finite (inject_Z z)).

(** [v == null]: the test behind [?.], [??] and lodash's [_.get]. *)
Definition nullish (v : Value) : bool :=
  match v with
  | Undefined | Null => true
  | _ => false
  end.

(** Own property of an object literal, first binding of the key. *)
Fixpoint lookupProp (props : list (string * Value)) (k : string) : Value :=
  match props with
  | [] => Undefined
  | (k', v) :: rest => if String.eqb k' k then v else lookupProp rest k
  end.

(** [v.k] for a [v] that is neither [undefined] nor [null].  Primitives and
    arrays carry none of the keys the poller reads ("response",
    "statusCode", "status", "items"). *)
Definition getProp (v : Value) (k : string) : Value :=
  match v with
  | Object props => lookupProp props k
  | _ => Undefined
  end.

(** [v?.k] *)
Definition optGet (v : Value) (k : string) : Value :=
  if nullish v then Undefined else getProp v k.

(** [a ?? b] *)
Definition orElse (a b : Value) : Value :=
  if nullish a then b else a.

(** [_.get(v, k)] for a single-segment path and no default value. *)
Definition lodashGet (v : Value) (k : string) : Value :=
  if nullish v then Undefined else getProp v k.

(** [!!v] *)
Definition truthy (v : Value) : bool :=
  match v with
  | Undefined | Null => false
  | Bool b => b
  | Number NaN => false
  | Number (Infinity _) => true
  | Number (Finite q) => negb (Qeq_bool q 0)
  | Str s => negb (String.eqb s "")
  | Array _ | Object _ => true
  end.

(** [v === z] for an integer literal [z]. *)
Definition strictEqInt (v : Value) (z : Z) : bool :=
  match v with
  | Number (Finite q) => Qeq_bool q (inject_Z z)
  | _ => false
  end.

End Js.

(* ====================================================================== *)
(** ** HTTP 403 classification                                             *)
(* ====================================================================== *)

(** The four places read by [isHttp403], in the order of the [??] chain. *)
Definition statusLocations (error : Js.Value) : list Js.Value :=
  [ Js.optGet (Js.optGet error "response") "statusCode";
    Js.optGet (Js.optGet error "response") "status";
    Js.optGet error "statusCode";
    Js.optGet error "status" ].

Definition isHttp403 (error : Js.Value) : bool :=
  let code :=
    Js.orElse (Js.optGet (Js.optGet error "response") "statusCode")
      (Js.orElse (Js.optGet (Js.optGet error "response") "status")
         (Js.orElse (Js.optGet error "statusCode")
            (Js.optGet error "status"))) in
  Js.strictEqInt code 403.

(* ====================================================================== *)
(** ** Numeric coercion: [Number(v)]                                       *)
(* ====================================================================== *)

Module Coerce.

Import Js.

(** Round half to even, to an integer. *)
Definition roundHalfEven (q : Q) : Z :=
  let f := Qfloor q in
  match Qcompare (q - inject_Z f) (1 # 2) with
  | Lt => f
  | Gt => f + 1
  | Eq => if Z.even f then f else f + 1
  end.

Definition pow2 (e : Z) : Q := Qpower 2 e.

(** [floor (log2 a)] for [a > 0]. *)
Definition binade (a : Q) : Z :=
  let e0 := Z.log2 (Qnum a) - Z.log2 (Zpos (Qden a)) in
  if Qle_bool (pow2 e0) a then e0 else e0 - 1.

(** The double nearest to a rational (IEEE 754 binary64, ties to even,
    gradual underflow, overflow to an infinity). *)
Definition roundDouble (q : Q) : Num :=
  if Qeq_bool q 0 then Finite 0
  else
    let a := Qabs q in
    let e := Z.max (binade a) (-1022) in
    let ulp := pow2 (e - 52) in
    let v := (inject_Z (roundHalfEven (a / ulp)) * ulp)%Q in
    let negative := match Qcompare q 0 with Lt => true | _ => false end in
    if Qle_bool (pow2 1024) v then Infinity negative
    else Finite (Qred (if negative then - v else v)).

(** A string is UTF-8 text, one [ascii] per byte. *)
Definition byte (c : ascii) : Z := Z.of_nat (nat_of_ascii c).

(** The white space and line terminators that [Number] strips from both ends
    of a string (StrWhiteSpaceChar), as UTF-8: one byte for TAB, LF, VT, FF,
    CR and SP; two bytes for U+00A0; three bytes for U+1680, U+2000 to U+200A,
    U+2028, U+2029, U+202F, U+205F, U+3000 and U+FEFF. *)
Definition isWhiteSpace1 (c : ascii) : bool :=
  (byte c =? 32) || ((9 <=? byte c) && (byte c <=? 13)).

Definition isWhiteSpace2 (c1 c2 : ascii) : bool :=
  (byte c1 =? 194) && (byte c2 =? 160).

Definition isWhiteSpace3 (c1 c2 c3 : ascii) : bool :=
  ((byte c1 =? 225) && (byte c2 =? 154) && (byte c3 =? 128))
  || ((byte c1 =? 226) && (byte c2 =? 128)
      && (((128 <=? byte c3) && (byte c3 <=? 138))
          || (byte c3 =? 168) || (byte c3 =? 169) || (byte c3 =? 175)))
  || ((byte c1 =? 226) && (byte c2 =? 129) && (byte c3 =? 159))
  || ((byte c1 =? 227) && (byte c2 =? 128) && (byte c3 =? 128))
  || ((byte c1 =? 239) && (byte c2 =? 187) && (byte c3 =? 191)).

(** Drops the white space at the start. *)
Fixpoint trimLeft (cs : list ascii) : list ascii :=
  match cs with
  | [] => []
  | c1 :: r1 =>
      if isWhiteSpace1 c1 then trimLeft r1
      else
        match r1 with
        | [] => cs
        | c2 :: r2 =>
            if isWhiteSpace2 c1 c2 then trimLeft r2
            else
              match r2 with
              | [] => cs
              | c3 :: r3 => if isWhiteSpace3 c1 c2 c3 then trimLeft r3 else cs
              end
        end
  end.

(** Drops the white space at the end, working on the reversed string: the
    bytes of a character come last byte first. *)
Fixpoint trimEnd (cs : list ascii) : list ascii :=
  match cs with
  | [] => []
  | c1 :: r1 =>
      if isWhiteSpace1 c1 then trimEnd r1
      else
        match r1 with
        | [] => cs
        | c2 :: r2 =>
            if isWhiteSpace2 c2 c1 then trimEnd r2
            else
              match r2 with
              | [] => cs
              | c3 :: r3 => if isWhiteSpace3 c3 c2 c1 then trimEnd r3 else cs
              end
        end
  end.

Definition trim (cs : list ascii) : list ascii :=
  rev (trimEnd (rev (trimLeft cs))).

Definition digitValue (c : ascii) : option Z :=
  let n := Z.of_nat (nat_of_ascii c) in
  if (48 <=? n) && (n <=? 57) then Some (n - 48)
  else if (97 <=? n) && (n <=? 102) then Some (n - 87)
  else if (65 <=? n) && (n <=? 70) then Some (n - 55)
  else None.

(** Reads the longest run of digits of the base: the accumulated value, the
    number of digits read and the rest of the input. *)
Fixpoint readDigits (base : Z) (cs : list ascii) (acc : Z) (count : Z)
  : Z * Z * list ascii :=
  match cs with
  | [] => (acc, count, [])
  | c :: rest =>
      match digitValue c with
      | Some d =>
          if d <? base then readDigits base rest (acc * base + d) (count + 1)
          else (acc, count, cs)
      | None => (acc, count, cs)
      end
  end.

Definition readSign (cs : list ascii) : bool * list ascii :=
  match cs with
  | c :: rest =>
      if Ascii.eqb c "+" then (false, rest)
      else if Ascii.eqb c "-" then (true, rest)
      else (false, cs)
  | [] => (false, cs)
  end.

(** A non-decimal integer literal: the digits after [0x], [0o] or [0b]. *)
Definition radixLiteral (base : Z) (cs : list ascii) : Num :=
  match readDigits base cs 0 0 with
  | (v, count, []) => if 0 <? count then roundDouble (inject_Z v) else NaN
  | _ => NaN
  end.

(** The fraction after the integer part [ip]: the digits after a point, read
    on top of [ip]. *)
Definition readFraction (ip : Z) (cs : list ascii) : Z * Z * list ascii :=
  match cs with
  | c :: rest => if Ascii.eqb c "." then readDigits 10 rest ip 0 else (ip, 0, cs)
  | [] => (ip, 0, cs)
  end.

(** An unsigned decimal literal: digits, an optional fraction and an optional
    exponent, with a digit on at least one side of the point. *)
Definition unsignedDecimal (cs : list ascii) : option Q :=
  let '(ip, ni, cs1) := readDigits 10 cs 0 0 in
  let '(mant, nf, cs2) := readFraction ip cs1 in
  if ni + nf =? 0 then None
  else
    match cs2 with
    | [] => Some (inject_Z mant * Qpower 10 (- nf))%Q
    | c :: rest =>
        if Ascii.eqb c "e" || Ascii.eqb c "E" then
          let '(eneg, cs3) := readSign rest in
          match readDigits 10 cs3 0 0 with
          | (ev, ne, []) =>
              if 0 <? ne
              then Some (inject_Z mant
                         * Qpower 10 ((if eneg then - ev else ev) - nf))%Q
              else None
          | _ => None
          end
        else None
    end.

Definition infinityLiteral : list ascii := list_ascii_of_string "Infinity".

(** The base and the digits of a literal that starts with [0x], [0o] or
    [0b], in either case. *)
Definition radixPrefix (cs : list ascii) : option (Z * list ascii) :=
  match cs with
  | z :: p :: rest =>
      if Ascii.eqb z "0" then
        if Ascii.eqb p "x" || Ascii.eqb p "X" then Some (16, rest)
        else if Ascii.eqb p "o" || Ascii.eqb p "O" then Some (8, rest)
        else if Ascii.eqb p "b" || Ascii.eqb p "B" then Some (2, rest)
        else None
      else None
  | _ => None
  end.

(** A signed decimal literal or a signed [Infinity]. *)
Definition signedDecimal (cs : list ascii) : Num :=
  let '(negative, body) := readSign cs in
  if bool_decide (body = infinityLiteral) then Infinity negative
  else match unsignedDecimal body with
       | Some q => roundDouble (if negative then - q else q)
       | None => NaN
       end.

(** [Number(s)] for a string: the StringToNumber operation. *)
Definition StringToNumber (s : string) : Num :=
  let cs := trim (list_ascii_of_string s) in
  match cs with
  | [] => Finite 0
  | _ :: _ =>
      match radixPrefix cs with
      | Some (base, digits) => radixLiteral base digits
      | None => signedDecimal cs
      end
  end.

(** [Number(v)].  An array or object is first turned into a string: "[object
    Object]" for an object; for an array the elements joined by commas, where
    [undefined] and [null] are rendered as the empty string and a number as a
    string that reads back as the same number. *)
Fixpoint ToNumber (v : Value) : Num :=
  match v with
  | Undefined => NaN
  | Null => Finite 0
  | Bool b => Finite (if b then 1 else 0)
  | Number n => n
  | Str s => StringToNumber s
  | Array [] => Finite 0
  | Array [x] =>
      match x with
      | Undefined | Null => Finite 0
      | Bool _ => NaN
      | Number n => n
      | Str s => StringToNumber s
      | Array _ => ToNumber x
      | Object _ => NaN
      end
  | Array (_ :: _ :: _) => NaN
  | Object _ => NaN
  end.

(** [Math.trunc] on a finite number. *)
Definition trunc (q : Q) : Z := Z.quot (Qnum q) (Zpos (Qden q)).

End Coerce.

(* ====================================================================== *)
(** ** Configuration                                                       *)
(* ====================================================================== *)

(** Modelled from the spec: the configuration store of [./config.js], which
    is not among the sources.  Section 6 gives it as a key-value lookup
    [config.get(path) -> value|undefined]; the store is a finite map from
    paths to values and a missing path reads as [undefined]. *)
Abbreviation Config := (gmap string Js.Value).

Definition configGet (config : Config) (configPath : string) : Js.Value :=
  default Js.Undefined (config !! configPath).

Definition MINIMAL_POLLING_INTERVAL : Q := inject_Z 15000.
Definition MINIMAL_AUTHENTICATION_INTERVAL : Q := inject_Z 3600000.
Definition APP_VERSION_REFRESH_INTERVAL : Q := inject_Z 86400000.
Definition DEFAULT_POLLING_MIN_MS : Q := inject_Z 40000.
Definition DEFAULT_POLLING_MAX_MS : Q := inject_Z 120000.

(** [_.isFinite(v)]: a value of type number that is neither [NaN] nor an
    infinity.  Returns the number. *)
Definition lodashIsFinite (v : Js.Value) : option Q :=
  match v with
  | Js.Number (Js.Finite q) => Some q
  | _ => None
  end.

Definition getInterval (config : Config) (configPath : string)
    (minimumIntervalInMs : Q) : Q :=
  match lodashIsFinite (configGet config configPath) with
  | Some configuredIntervalInMs => Qmax configuredIntervalInMs minimumIntervalInMs
  | None => minimumIntervalInMs
  end.

Definition getConfiguredInt (config : Config) (configPath : string)
    (fallback : Z) : Z :=
  let v := configGet config configPath in
  match Coerce.ToNumber v with
  | Js.Finite n => Coerce.trunc n
  | _ => fallback
  end.

(** [None] is the [null] of the source. *)
Definition getConfiguredNumber (config : Config) (configPath : string)
  : option Q :=
  let v := configGet config configPath in
  lodashIsFinite v.

(* ====================================================================== *)
(** ** Interval policy                                                     *)
(* ====================================================================== *)

(** [random] is the value of [Math.random()]. *)
Definition randomIntInclusive (min max random : Q) : Z :=
  let minInt := Qceiling min in
  let maxInt := Qfloor max in
  Qfloor (random * inject_Z (maxInt - minInt + 1)) + minInt.

(** The bounds chosen by the [if]/[else] of [getRandomPollingIntervalInMs],
    before the two clamps. *)
Definition configuredBounds (config : Config) : Q * Q :=
  let cfgMin := getConfiguredNumber config "api.pollingIntervalMinInMs" in
  let cfgMax := getConfiguredNumber config "api.pollingIntervalMaxInMs" in
  let legacyFixed := getConfiguredNumber config "api.pollingIntervalInMs" in
  match cfgMin, cfgMax with
  | None, None =>
      match legacyFixed with
      | Some fixed => (fixed, fixed)
      | None => (DEFAULT_POLLING_MIN_MS, DEFAULT_POLLING_MAX_MS)
      end
  | _, _ =>
      (default DEFAULT_POLLING_MIN_MS cfgMin,
       default DEFAULT_POLLING_MAX_MS cfgMax)
  end.

Definition getRandomPollingIntervalInMs (config : Config) (random : Q) : Z :=
  let '(minMs, maxMs) := configuredBounds config in
  let minMs := Qmax minMs MINIMAL_POLLING_INTERVAL in
  let maxMs := Qmax maxMs minMs in
  randomIntInclusive minMs maxMs random.

(* ====================================================================== *)
(** ** The poll loop: 403 backoff, next delay, output                      *)
(* ====================================================================== *)

(** The three settings read when [pollLoopWith403Backoff$] is called. *)
Record Backoff : Type := {
  threshold : Z;
  windowMs : Z;
  cooldownMs : Z;
}.

Definition readBackoff (config : Config) : Backoff :=
  {| threshold := getConfiguredInt config "api.backoff403.threshold" 3;
     windowMs := getConfiguredInt config "api.backoff403.windowMs" 300000;
     cooldownMs := getConfiguredInt config "api.backoff403.cooldownMs" 600000 |}.

(** The [state] object created by the [defer] factory. *)
Record State : Type := {
  error403Timestamps : list Z;
  cooldownUntil : Z;
}.

Definition initialState : State :=
  {| error403Timestamps := []; cooldownUntil := 0 |}.

(** What [runOnce$] emits: [{ kind: "success", response }] or
    [{ kind: "error", err }]. *)
Inductive Event : Type :=
| success (response : Js.Value)
| error (err : Js.Value).

Definition kindIsError (event : Event) : bool :=
  match event with error _ => true | success _ => false end.

Definition kindIsSuccess (event : Event) : bool :=
  match event with success _ => true | error _ => false end.

(** [event.err] and [event.response]; a missing property is [undefined]. *)
Definition eventErr (event : Event) : Js.Value :=
  match event with error err => err | success _ => Js.Undefined end.

Definition eventResponse (event : Event) : Js.Value :=
  match event with success response => response | error _ => Js.Undefined end.

(** The error-handling block of the [expand] callback (the state update; the
    logging is left out). *)
Definition handleError (b : Backoff) (state : State) (event : Event) (now : Z)
  : State :=
  if kindIsError event && isHttp403 (eventErr event) then
    let pushed := error403Timestamps state ++ [now] in
    let kept := filter (λ t, (now - t <= windowMs b)%Z) pushed in
    if bool_decide (Z.of_nat (length kept) >= threshold b)%Z then
      {| error403Timestamps := [];
         cooldownUntil := Z.max (cooldownUntil state) (now + cooldownMs b) |}
    else
      {| error403Timestamps := kept; cooldownUntil := cooldownUntil state |}
  else state.

(** One run of the [expand] callback: the outcome of the fetch, the value of
    [Date.now()] and the value of [Math.random()]. *)
Record Cycle : Type := {
  event : Event;
  now : Z;
  random : Q;
}.

(** The [expand] callback: the new state and [nextDelay]. *)
Definition expandCallback (config : Config) (b : Backoff) (state : State)
    (c : Cycle) : State * Z :=
  let state' := handleError b state (event c) (now c) in
  let randomDelay := getRandomPollingIntervalInMs config (random c) in
  let cooldownDelay := Z.max 0 (cooldownUntil state' - now c) in
  let nextDelay := Z.max randomDelay cooldownDelay in
  (state', nextDelay).

(** The cycle arms a cooldown: a failure classified as HTTP 403 whose pruned
    window reaches the threshold (the inner [if] of the callback). *)
Definition armsCooldown (b : Backoff) (state : State) (c : Cycle) : bool :=
  kindIsError (event c) && isHttp403 (eventErr (event c))
  && bool_decide
       (Z.of_nat
          (length
             (filter (λ t, (now c - t <= windowMs b)%Z)
                (error403Timestamps state ++ [now c])))
        >= threshold b)%Z.

(** The operators after [expand]. *)
Definition outputPipeline (events : list Event) : list Js.Value :=
  map (λ response, Js.getProp response "items")
    (List.filter (λ response, Js.truthy (Js.lodashGet response "items"))
       (map (λ event, eventResponse event)
          (List.filter (λ event, kindIsSuccess event) events))).

(** The loop over the cycles of one subscription: the state after them and
    the delay scheduled by each. *)
Fixpoint runCycles (config : Config) (b : Backoff) (state : State)
    (cycles : list Cycle) : State * list Z :=
  match cycles with
  | [] => (state, [])
  | c :: rest =>
      let '(state', nextDelay) := expandCallback config b state c in
      let '(final, delays) := runCycles config b state' rest in
      (final, nextDelay :: delays)
  end.

Record LoopRun : Type := {
  finalState : State;
  delays : list Z;
  emitted : list Js.Value;
}.

(** [pollLoopWith403Backoff$] over the first cycles of a subscription. *)
Definition pollLoopWith403Backoff (config : Config) (cycles : list Cycle)
  : LoopRun :=
  let b := readBackoff config in
  let '(final, ds) := runCycles config b initialState cycles in
  {| finalState := final;
     delays := ds;
     emitted := outputPipeline (map event cycles) |}.

(* ====================================================================== *)
(** ** The enable signal: [switchMap] in [pollFavoriteBusinesses$]         *)
(* ====================================================================== *)

(** What reaches [poll$]: a value of [enabled$], or the completion of the
    fetch in flight (the event [runOnce$] emits, with the clock and the random
    draw the [expand] callback then reads). *)
Inductive Signal : Type :=
| Enabled (enabled : bool)
| Fetched (c : Cycle).

Inductive Effect : Type :=
| Fetch
| Emit (items : Js.Value)
| Schedule (nextDelay : Z).

(** The inner subscription of [switchMap] is the state of the running loop,
    or [None] when the inner observable is [EMPTY] (or before the first value
    of [enabled$]).  A new value of [enabled$] unsubscribes the inner
    subscription and subscribes to the new inner observable; subscribing to
    the [defer] runs its factory, which makes a new [state] and calls
    [runOnce$].  A fetch completing while no loop is subscribed reaches
    nobody. *)
Definition switchMapStep (config : Config) (inner : option State)
    (s : Signal) : option State * list Effect :=
  match s with
  | Enabled enabled =>
      if enabled then (Some initialState, [Fetch]) else (None, [])
  | Fetched c =>
      match inner with
      | Some state =>
          let '(state', nextDelay) :=
            expandCallback config (readBackoff config) state c in
          (Some state',
           map Emit (outputPipeline [event c]) ++ [Schedule nextDelay])
      | None => (None, [])
      end
  end.

Fixpoint pollFavoriteBusinesses (config : Config) (inner : option State)
    (signals : list Signal) : option State * list Effect :=
  match signals with
  | [] => (inner, [])
  | s :: rest =>
      let '(inner', effects) := switchMapStep config inner s in
      let '(final, later) := pollFavoriteBusinesses config inner' rest in
      (final, effects ++ later)
  end.

(* ====================================================================== *)
(** ** Periodic side effects                                               *)
(* ====================================================================== *)

(** A settled promise. *)
Inductive Settled : Type :=
| Resolved (value : Js.Value)
| Rejected (reason : Js.Value).

(** A fire of a timer: the number it emits and its instant, in milliseconds
    since the subscription. *)
Record Fire : Type := {
  count : nat;
  at_ms : Q;
}.

(** A notification of an observable, with the fire it answers.  After
    [Failed] the observable is over: it has unsubscribed from its source. *)
Inductive Notification : Type :=
| Next (fire : Fire) (value : Js.Value)
| Failed (fire : Fire) (reason : Js.Value).

(** [timer(0, period)] emits 0, 1, 2, ..., the first at once and then one
    every [period] milliseconds: its first [n] fires. *)
Definition timer (period : Q) (n : nat) : list Fire :=
  map (λ k, {| count := k; at_ms := inject_Z (Z.of_nat k) * period |})
    (seq 0 n).

(** [source.pipe(mergeMap(project))] where [project] returns a promise, which
    is taken to settle before the next fire: a resolved promise is passed on
    and a rejected one is the error of the result, which ends it. *)
Fixpoint mergeMap (project : nat → Settled) (fires : list Fire)
  : list Notification :=
  match fires with
  | [] => []
  | fire :: rest =>
      match project (count fire) with
      | Resolved value => Next fire value :: mergeMap project rest
      | Rejected reason => [Failed fire reason]
      end
  end.

(** [retry(count)] over a source that is subscribed to again after each
    error: [attempt k] is what the [k]-th subscription yields. *)
Fixpoint retry (count : nat) (attempt : nat → Settled) (k : nat) : Settled :=
  match attempt k with
  | Resolved value => Resolved value
  | Rejected reason =>
      match count with
      | O => Rejected reason
      | S count' => retry count' attempt (S k)
      end
  end.

(** [catchError(logError)]: [logError] returns [of(null)]. *)
Definition catchErrorLogError (s : Settled) : Settled :=
  match s with
  | Resolved value => Resolved value
  | Rejected _ => Resolved Js.Null
  end.

(** [updateAppVersionByInterval$] over the first [n] fires of its timer:
    [updateAppVersion k] is how the promise of the call made at fire [k]
    settles. *)
Definition updateAppVersionByInterval (updateAppVersion : nat → Settled)
    (n : nat) : list Notification :=
  mergeMap updateAppVersion (timer APP_VERSION_REFRESH_INTERVAL n).

(** [authenticateByInterval$] over the first [n] fires of its timer:
    [from(promise)] hands every subscriber the one promise of the call. *)
Definition authenticateByInterval (config : Config) (login : nat → Settled)
    (n : nat) : list Notification :=
  let authenticationIntervalInMs :=
    getInterval config "api.authenticationIntervalInMS"
      MINIMAL_AUTHENTICATION_INTERVAL in
  mergeMap
    (λ k, catchErrorLogError (retry 2 (λ _, login k) 0))
    (timer authenticationIntervalInMs n).

(* ====================================================================== *)
(** ** The specification's wording, for comparison                         *)
(* ====================================================================== *)

Module Reference.

(** How section 4.2 sees the outcome of a cycle. *)
Inductive Outcome : Type :=
| Success
| Failure403
| FailureOther.

Definition classify (e : Event) : Outcome :=
  match e with
  | success _ => Success
  | error err => if isHttp403 err then Failure403 else FailureOther
  end.

(** "prune entries older than windowMs": keep the [t] with
    [now - t <= windowMs]. *)
Fixpoint prune (window now : Z) (timestamps : list Z) : list Z :=
  match timestamps with
  | [] => []
  | t :: rest =>
      if now - t <=? window then t :: prune window now rest
      else prune window now rest
  end.

(** [Backoff403Tracker.observe] of section 4.2. *)
Definition observe (b : Backoff) (s : State) (o : Outcome) (now : Z) : State :=
  match o with
  | Failure403 =>
      let pruned := prune (windowMs b) now (error403Timestamps s ++ [now]) in
      if threshold b <=? Z.of_nat (length pruned) then
        {| error403Timestamps := [];
           cooldownUntil := Z.max (cooldownUntil s) (now + cooldownMs b) |}
      else
        {| error403Timestamps := pruned; cooldownUntil := cooldownUntil s |}
  | FailureOther | Success => s
  end.

(** [cooldownRemaining] of section 4.2. *)
Definition cooldownRemaining (s : State) (now : Z) : Z :=
  Z.max 0 (cooldownUntil s - now).

(** The output contract of section 4.3 as the claim reads it: a batch for a
    success whose [items] is a sequence with at least one element. *)
Definition emission (e : Event) : list Js.Value :=
  match e with
  | success response =>
      match Js.lodashGet response "items" with
      | Js.Array (x :: rest) => [Js.Array (x :: rest)]
      | _ => []
      end
  | error _ => []
  end.

(** The classification as the claim reads it: 403 in at least one of the
    four places. *)
Definition carries403 (err : Js.Value) : bool :=
  existsb (λ v, Js.strictEqInt v 403) (statusLocations err).

End Reference.

(* ====================================================================== *)
(** ** Sample inputs                                                       *)
(* ====================================================================== *)

(** An error as the HTTP client raises it for a 403 response. *)
Definition forbidden : Event :=
  error (Js.Object [("response", Js.Object [("statusCode", Js.num 403)])]).

Definition cycleAt (e : Event) (t : Z) : Cycle :=
  {| event := e; now := t; random := 0 |}.

(** A successful response whose [items] is the empty array. *)
Definition emptyBatch : Event :=
  success (Js.Object [("items", Js.Array [])]).

(** An error with a 500 in [response.statusCode] and a 403 in [status]. *)
Definition shadowed403 : Js.Value :=
  Js.Object [("response", Js.Object [("statusCode", Js.num 500)]);
             ("status", Js.num 403)].

(** A call that is rejected the first time and resolved ever after. *)
Definition rejectedAtStart (reason : Js.Value) (k : nat) : Settled :=
  match k with
  | O => Rejected reason
  | S _ => Resolved Js.Undefined
  end.

(** Polling bounds 15000.2 and 15000.8: no integer lies between them. *)
Definition fractionalBounds : Config :=
  {[ "api.pollingIntervalMinInMs" := Js.Number (Js.Finite (75001 # 5));
     "api.pollingIntervalMaxInMs" := Js.Number (Js.Finite (75004 # 5)) ]}.

(** Polling bounds below the floor: 5000 and 10000. *)
Definition belowFloor : Config :=
  {[ "api.pollingIntervalMinInMs" := Js.num 5000;
     "api.pollingIntervalMaxInMs" := Js.num 10000 ]}.

(** Polling bounds 20000 and 30000. *)
Definition plainBounds : Config :=
  {[ "api.pollingIntervalMinInMs" := Js.num 20000;
     "api.pollingIntervalMaxInMs" := Js.num 30000 ]}.

(** Only the legacy interval is set, to 60000.5 and to 60000. *)
Definition fractionalLegacy : Config :=
  {[ "api.pollingIntervalInMs" := Js.Number (Js.Finite (120001 # 2)) ]}.

Definition plainLegacy : Config :=
  {[ "api.pollingIntervalInMs" := Js.num 60000 ]}.

(** Settings written as strings, and a cooldown that is no number. *)
Definition stringSettings : Config :=
  {[ "api.backoff403.threshold" := Js.Str "5";
     "api.backoff403.cooldownMs" := Js.Str "ten minutes";
     "api.pollingIntervalMinInMs" := Js.Str "50000" ]}.

(* ====================================================================== *)
(** ** Further parts of the source                                         *)
(* ====================================================================== *)

(** [runOnce$]: [from(listFavoriteBusinesses()).pipe(retry(2), map(...),
    catchError(...))].  The call is made when [runOnce$] is called and
    [from] wraps its promise, so every subscription made by [retry] is handed
    that one promise; the argument is how it settles. *)
Definition runOnce (listFavoriteBusinesses : Settled) : Event :=
  match retry 2 (λ _, listFavoriteBusinesses) 0 with
  | Resolved response => success response
  | Rejected err => error err
  end.

(** The condition of the outer [if] of the [expand] callback. *)
Definition is403Cycle (c : Cycle) : bool :=
  kindIsError (event c) && isHttp403 (eventErr (event c)).

(** [Math.random()] lies in the half-open unit interval. *)
Definition unitInterval (random : Q) : Prop := (0 <= random < 1)%Q.

(** The batches and the delays among the effects of [poll$]. *)
Definition emittedItems (effects : list Effect) : list Js.Value :=
  flat_map (λ e, match e with Emit items => [items] | _ => [] end) effects.

Definition scheduledDelays (effects : list Effect) : list Z :=
  flat_map (λ e, match e with Schedule d => [d] | _ => [] end) effects.

(** The wait Node's timers make for a delay handed to [setInterval], which
    is where the [timer] of RxJS ends up: a delay from 1 to 2147483647 is
    truncated to whole milliseconds, and any other delay is taken as 1. *)
Definition TIMEOUT_MAX : Z := 2147483647.

Definition timerWait (delay : Q) : Z :=
  if Qle_bool 1 delay && Qle_bool delay (inject_Z TIMEOUT_MAX)
  then Coerce.trunc delay
  else 1.

(** [pollTick$] of the older version of the file (src/unnamed/part_000):
    [timer(0).pipe(expand(() => timer(getRandomPollingIntervalInMs())))].
    The instants of its ticks, given the instant [at_ms] of the first: one
    more tick for each value of [Math.random()] drawn, after the wait the
    timer makes for the interval. *)
Fixpoint pollTickFrom (config : Config) (at_ms : Z) (randoms : list Q)
  : list Z :=
  match randoms with
  | [] => [at_ms]
  | random :: rest =>
      at_ms
      :: pollTickFrom config
           (at_ms
            + timerWait (inject_Z (getRandomPollingIntervalInMs config random)))
           rest
  end.

(** [`${v}`] raises a TypeError.  Among the values of [Js.Value], none of
    which is a function, that is an object with a [toString] of its own (the
    inherited [valueOf] then yields no primitive) and an array with such an
    element ([join] renders [undefined] and [null] as the empty string). *)
#[warnings="-register-all"]
Fixpoint toStringThrows (v : Js.Value) : bool :=
  match v with
  | Js.Object props => existsb (λ p, String.eqb (fst p) "toString") props
  | Js.Array elems => existsb toStringThrows elems
  | _ => false
  end.

(** [url?.toString?.()] raises a TypeError: [url] has a [toString] of its own
    that is neither [undefined] nor [null], hence is called without being a
    function; or it is an array that cannot be joined. *)
Definition urlToStringThrows (url : Js.Value) : bool :=
  match url with
  | Js.Object props => negb (Js.nullish (Js.lookupProp props "toString"))
  | Js.Array _ => toStringThrows url
  | _ => false
  end.

(** [logError] raises instead of returning [of(null)]: only the first branch
    builds a string, from [error.options.method], [error.options.url] and
    [error.stack] ([JSON.stringify] raises for none of these values). *)
Definition logErrorThrows (error : Js.Value) : bool :=
  let options := Js.optGet error "options" in
  Js.truthy options
  && (toStringThrows (Js.getProp options "method")
      || urlToStringThrows (Js.getProp options "url")
      || toStringThrows (Js.getProp error "stack")).

(** The TypeError raised by [logError]; its text is left out. *)
Definition typeError : Js.Value := Js.Str "TypeError".

(** [catchError(logError)] with the errors of [logError]: an error raised by
    the selector is the error of the result. *)
Definition catchErrorLogErrorOrThrow (s : Settled) : Settled :=
  match s with
  | Resolved value => Resolved value
  | Rejected reason =>
      if logErrorThrows reason then Rejected typeError else Resolved Js.Null
  end.

(** [authenticateByInterval$] as Node runs it: the period is the wait the
    timer makes for the configured interval, and [logError] may raise. *)
Definition authenticateByIntervalOnNode (config : Config)
    (login : nat → Settled) (n : nat) : list Notification :=
  let authenticationIntervalInMs :=
    getInterval config "api.authenticationIntervalInMS"
      MINIMAL_AUTHENTICATION_INTERVAL in
  mergeMap
    (λ k, catchErrorLogErrorOrThrow (retry 2 (λ _, login k) 0))
    (timer (inject_Z (timerWait authenticationIntervalInMs)) n).

(** Strings of white space, decimal digits and signs, to speak of numeric
    strings. *)
Inductive whiteSpace : list ascii → Prop :=
| whiteSpace_nil : whiteSpace []
| whiteSpace_1 (c : ascii) (rest : list ascii) :
    Coerce.isWhiteSpace1 c = true → whiteSpace rest → whiteSpace (c :: rest)
| whiteSpace_2 (c1 c2 : ascii) (rest : list ascii) :
    Coerce.isWhiteSpace2 c1 c2 = true → whiteSpace rest →
    whiteSpace (c1 :: c2 :: rest)
| whiteSpace_3 (c1 c2 c3 : ascii) (rest : list ascii) :
    Coerce.isWhiteSpace3 c1 c2 c3 = true → whiteSpace rest →
    whiteSpace (c1 :: c2 :: c3 :: rest).

Definition isDecimalDigit (c : ascii) : bool :=
  (48 <=? Coerce.byte c) && (Coerce.byte c <=? 57).

(** The number written by a string of decimal digits. *)
Definition decimalValue (digits : list ascii) : Z :=
  fold_left (λ acc c, acc * 10 + (Coerce.byte c - 48)) digits 0.

Inductive Sign : Type :=
| Unsigned
| Plus
| Minus.

Definition signChars (s : Sign) : list ascii :=
  match s with
  | Unsigned => []
  | Plus => ["+"%char]
  | Minus => ["-"%char]
  end.

Definition signed (s : Sign) (z : Z) : Z :=
  match s with
  | Minus => - z
  | Unsigned | Plus => z
  end.

(** An ASCII character with which no numeric string starts: not white
    space, not a digit, not a sign, not the point and not the [I] of
    [Infinity]. *)
Definition notNumericStart (c : ascii) : bool :=
  (Coerce.byte c <? 128)
  && negb (Coerce.isWhiteSpace1 c)
  && negb (isDecimalDigit c)
  && negb (Ascii.eqb c "+") && negb (Ascii.eqb c "-")
  && negb (Ascii.eqb c ".") && negb (Ascii.eqb c "I").

(** More sample inputs. *)

(** The minimum above the maximum: 50000 and 20000. *)
Definition swappedBounds : Config :=
  {[ "api.pollingIntervalMinInMs" := Js.num 50000;
     "api.pollingIntervalMaxInMs" := Js.num 20000 ]}.

(** Only the minimum, and only the maximum. *)
Definition onlyMin : Config := {[ "api.pollingIntervalMinInMs" := Js.num 60000 ]}.
Definition onlyMax : Config := {[ "api.pollingIntervalMaxInMs" := Js.num 90000 ]}.

(** A threshold that is [null], a negative window. *)
Definition nullThreshold : Config :=
  {[ "api.backoff403.threshold" := Js.Null ]}.

Definition negativeWindow : Backoff :=
  {| threshold := 3; windowMs := -1; cooldownMs := 600000 |}.

(** An authentication interval of two hours. *)
Definition twoHours : Config :=
  {[ "api.authenticationIntervalInMS" := Js.num 7200000 ]}.

(** A call that is resolved twice and then rejected. *)
Definition rejectedThird (reason : Js.Value) (k : nat) : Settled :=
  if (k =? 2)%nat then Rejected reason else Resolved Js.Undefined.

(** A minimum polling interval and an authentication interval above what a
    timer of Node takes. *)
Definition hugeMinimum : Config :=
  {[ "api.pollingIntervalMinInMs" := Js.num 3000000000 ]}.

Definition hugeAuthentication : Config :=
  {[ "api.authenticationIntervalInMS" := Js.num 3000000000 ]}.

(** The white space and line terminators of ECMAScript as UTF-8: U+0009 to
    U+000D, U+0020, U+00A0, U+1680, U+2000 to U+200A, U+2028, U+2029, U+202F,
    U+205F, U+3000 and U+FEFF. *)
Definition whiteSpaceCodes : list (list ascii) :=
  map (map ascii_of_nat)
    [[9]; [10]; [11]; [12]; [13]; [32]; [194; 160]; [225; 154; 128];
     [226; 128; 128]; [226; 128; 129]; [226; 128; 130]; [226; 128; 131];
     [226; 128; 132]; [226; 128; 133]; [226; 128; 134]; [226; 128; 135];
     [226; 128; 136]; [226; 128; 137]; [226; 128; 138]; [226; 128; 168];
     [226; 128; 169]; [226; 128; 175]; [226; 129; 159]; [227; 128; 128];
     [239; 187; 191]]%nat.

(** Two characters that are no white space for [Number]: the zero width
    space (U+200B) and the next line control (U+0085). *)
Definition zeroWidthSpace : list ascii :=
  [ascii_of_nat 226; ascii_of_nat 128; ascii_of_nat 139].
Definition nextLine : list ascii := [ascii_of_nat 194; ascii_of_nat 133].

(** Strings that are no numbers, and numeric strings with the integer
    [getConfiguredInt] reads from them. *)
Definition notNumbers : list string :=
  ["Infinity"; "-Infinity"; "."; "1e"; "+-1"; "0x"; "-0x10"; "1_000";
   "12px"; "1 2"; "NaN"; "1e999"; "-1e999";
   string_of_list_ascii (zeroWidthSpace ++ ["5"%char]);
   string_of_list_ascii (nextLine ++ ["5"%char])].

Definition numericStrings : list (string * Z) :=
  [("25e-1", 2); (".5e1", 5); ("5.", 5); ("-12.7", -12); ("0b101", 5);
   ("0o17", 15); ("0X1f", 31); ("012", 12); ("-0", 0); ("1e+2", 100);
   ("9007199254740993", 9007199254740992)].

(** A no-break space (U+00A0) and a byte order mark (U+FEFF). *)
Definition noBreakSpace : list ascii := [ascii_of_nat 194; ascii_of_nat 160].
Definition byteOrderMark : list ascii :=
  [ascii_of_nat 239; ascii_of_nat 187; ascii_of_nat 191].

(** A failure with a status of 500. *)
Definition serverError : Event :=
  error (Js.Object [("response", Js.Object [("statusCode", Js.num 500)])]).

(* ====================================================================== *)
(** * Properties                                                           *)
(* ====================================================================== *)

(** ** The backoff tracker *)

Section Tracker.

Variable b : Backoff.

Lemma filter_prune (now : Z) (timestamps : list Z) :
  filter (λ t, (now - t <= windowMs b)%Z) timestamps
  = Reference.prune (windowMs b) now timestamps.
Proof.
  induction timestamps as [|t rest IH]; [done|].
  rewrite filter_cons. simpl. rewrite <- IH.
  destruct (decide (now - t <= windowMs b)) as [Hle|Hgt].
  - apply Z.leb_le in Hle. by rewrite Hle.
  - apply Z.leb_nle in Hgt. by rewrite Hgt.
Qed.

Lemma reaches_threshold (n : nat) :
  bool_decide (Z.of_nat n >= threshold b) = (threshold b <=? Z.of_nat n).
Proof.
  destruct (Z.leb_spec (threshold b) (Z.of_nat n)).
  - apply bool_decide_eq_true. lia.
  - apply bool_decide_eq_false. lia.
Qed.

Lemma handleError_success (state : State) (response : Js.Value) (now : Z) :
  handleError b state (success response) now = state.
Proof. reflexivity. Qed.

Lemma handleError_other (state : State) (err : Js.Value) (now : Z) :
  isHttp403 err = false → handleError b state (error err) now = state.
Proof. intros H. unfold handleError. simpl. by rewrite H. Qed.

Lemma handleError_cooldownUntil (state : State) (e : Event) (now : Z) :
  cooldownUntil state <= cooldownUntil (handleError b state e now).
Proof.
  unfold handleError.
  destruct (kindIsError e && isHttp403 (eventErr e)); [|lia].
  case_bool_decide; simpl; lia.
Qed.

Lemma runCycles_app (config : Config) (state : State) (pre post : list Cycle) :
  runCycles config b state (pre ++ post)
  = let '(mid, ds1) := runCycles config b state pre in
    let '(final, ds2) := runCycles config b mid post in
    (final, ds1 ++ ds2).
Proof.
  revert state. induction pre as [|c pre IH]; intros state; simpl.
  - by destruct (runCycles config b state post).
  - rewrite IH.
    destruct (runCycles config b _ pre) as [mid ds1].
    by destruct (runCycles config b mid post).
Qed.

Lemma runCycles_cooldownUntil (config : Config) (cycles : list Cycle) :
  ∀ state,
    cooldownUntil state <= cooldownUntil (fst (runCycles config b state cycles)).
Proof.
  induction cycles as [|c rest IH]; intros state; simpl; [lia|].
  specialize (IH (handleError b state (event c) (now c))).
  destruct (runCycles config b _ rest) as [final ds]. simpl in *.
  pose proof (handleError_cooldownUntil state (event c) (now c)). lia.
Qed.

Lemma runCycles_length (config : Config) (cycles : list Cycle) :
  ∀ state, length (snd (runCycles config b state cycles)) = length cycles.
Proof.
  induction cycles as [|c rest IH]; intros state; simpl; [done|].
  specialize (IH (handleError b state (event c) (now c))).
  destruct (runCycles config b _ rest) as [final ds]. simpl in *. lia.
Qed.

End Tracker.

(** C1. The state update of a poll cycle is the [observe] of section 4.2: on
    a failure classified as HTTP 403 it appends [now], keeps the timestamps
    [t] with [now - t <= windowMs] and, when their number reaches the
    threshold, sets [cooldownUntil] to the maximum of its previous value and
    [now + cooldownMs] and empties the sequence; on any other failure and on
    a success the state is unchanged. *)
Theorem C1_handleError_is_observe (b : Backoff) (state : State) (e : Event)
    (now : Z) :
  handleError b state e now
  = Reference.observe b state (Reference.classify e) now.
Proof.
  destruct e as [response|err]; [reflexivity|].
  unfold handleError, Reference.classify. simpl.
  destruct (isHttp403 err); [|reflexivity].
  simpl. by rewrite filter_prune, reaches_threshold.
Qed.

(** Section 8: with the default settings three 403 failures within 300 s arm
    a cooldown of [cooldownMs], and failures at 0, 200000 and 400000 do not,
    the first having left the window when the third arrives. *)
Example three_failures_arm_cooldown :
  foldl (λ state t, handleError (readBackoff ∅) state forbidden t)
    initialState [0; 100000; 200000]
  = {| error403Timestamps := []; cooldownUntil := 200000 + 600000 |}.
Proof. reflexivity. Qed.

Example spread_failures_do_not_arm :
  foldl (λ state t, handleError (readBackoff ∅) state forbidden t)
    initialState [0; 200000; 400000]
  = {| error403Timestamps := [200000; 400000]; cooldownUntil := 0 |}.
Proof. reflexivity. Qed.

(** C9. Within one loop [cooldownUntil] never decreases: not over one
    observation, and so not over any further cycles of a run. *)
Theorem C9_cooldownUntil_monotone (config : Config) (b : Backoff)
    (state : State) :
  (∀ e now, cooldownUntil state <= cooldownUntil (handleError b state e now))
  ∧ (∀ pre post,
        cooldownUntil (fst (runCycles config b state pre))
        <= cooldownUntil (fst (runCycles config b state (pre ++ post)))).
Proof.
  split.
  - apply handleError_cooldownUntil.
  - intros pre post. rewrite runCycles_app.
    pose proof (runCycles_cooldownUntil b config post) as Hpost.
    destruct (runCycles config b state pre) as [mid ds1].
    specialize (Hpost mid).
    destruct (runCycles config b mid post) as [final ds2]. exact Hpost.
Qed.

(** ** The next delay *)

Lemma armsCooldown_cooldownUntil (b : Backoff) (state : State) (c : Cycle) :
  armsCooldown b state c = true →
  now c + cooldownMs b
  <= cooldownUntil (handleError b state (event c) (now c)).
Proof.
  unfold armsCooldown, handleError. intros H.
  apply andb_prop in H as [H403 Hcount].
  rewrite H403, Hcount. simpl. lia.
Qed.

Lemma expandCallback_delay (config : Config) (b : Backoff) (state : State)
    (c : Cycle) :
  snd (expandCallback config b state c)
  = Z.max (getRandomPollingIntervalInMs config (random c))
      (Reference.cooldownRemaining (fst (expandCallback config b state c))
         (now c)).
Proof. reflexivity. Qed.

(** C2. The delay before the next fetch is the maximum of the random interval
    and the remaining cooldown of the updated tracker, so it is never below
    the random interval; and once a cycle at instant [T] has armed a cooldown,
    the delay of that cycle and of every later cycle of the loop, at instant
    [now], is at least [(T + cooldownMs) - now]. *)
Theorem C2_next_delay (config : Config) (b : Backoff) (state : State)
    (pre : list Cycle) (armed : Cycle) (later : list Cycle) (c : Cycle) :
  (∀ s,
      snd (expandCallback config b s c)
      = Z.max (getRandomPollingIntervalInMs config (random c))
          (Z.max 0 (cooldownUntil (fst (expandCallback config b s c)) - now c))
      ∧ getRandomPollingIntervalInMs config (random c)
        <= snd (expandCallback config b s c))
  ∧ (armsCooldown b (fst (runCycles config b state pre)) armed = true →
     cooldownMs b
     <= snd (expandCallback config b (fst (runCycles config b state pre)) armed)
     ∧ (now armed + cooldownMs b) - now c
       <= snd (expandCallback config b
                 (fst (runCycles config b state (pre ++ armed :: later))) c)).
Proof.
  split.
  - intros s. split; [reflexivity|]. simpl. lia.
  - intros Harm.
    pose proof (armsCooldown_cooldownUntil b _ armed Harm) as Hset.
    split; [simpl; lia|].
    rewrite runCycles_app.
    destruct (runCycles config b state pre) as [mid ds1]. simpl in Hset.
    simpl.
    pose proof (runCycles_cooldownUntil b config later
                  (handleError b mid (event armed) (now armed))) as Hlater.
    destruct (runCycles config b _ later) as [final ds2]. simpl in *.
    pose proof (handleError_cooldownUntil b final (event c) (now c)).
    lia.
Qed.

Lemma C2_next_delay_witness :
  armsCooldown (readBackoff ∅)
    (fst (runCycles ∅ (readBackoff ∅) initialState
            [cycleAt forbidden 0; cycleAt forbidden 50000]))
    (cycleAt forbidden 100000) = true
  ∧ (100000 + 600000) - 200000
    <= snd (expandCallback ∅ (readBackoff ∅)
              (fst (runCycles ∅ (readBackoff ∅) initialState
                      ([cycleAt forbidden 0; cycleAt forbidden 50000]
                       ++ cycleAt forbidden 100000 :: [])))
              (cycleAt (success Js.Null) 200000)).
Proof.
  pose proof (C2_next_delay ∅ (readBackoff ∅) initialState
                [cycleAt forbidden 0; cycleAt forbidden 50000]
                (cycleAt forbidden 100000) []
                (cycleAt (success Js.Null) 200000)) as [_ Harmed].
  split; [vm_compute; reflexivity|].
  apply Harmed. vm_compute; reflexivity.
Defined.

(** ** The version-refresh timer *)

Lemma mergeMap_resolved (project : nat → Settled) (fires : list Fire) :
  (∀ k, ∃ value, project k = Resolved value) →
  length (mergeMap project fires) = length fires.
Proof.
  intros Hres. induction fires as [|fire rest IH]; [done|]. simpl.
  destruct (Hres (count fire)) as [value ->]. simpl. by rewrite IH.
Qed.

(** The authentication timer outlives every rejected login. *)
Lemma authenticateByInterval_survives (config : Config)
    (login : nat → Settled) (n : nat) :
  length (authenticateByInterval config login n) = n.
Proof.
  unfold authenticateByInterval. rewrite mergeMap_resolved.
  - unfold timer. by rewrite length_map, length_seq.
  - intros k. simpl. destruct (login k); simpl; eauto.
Qed.

(** While no call is rejected the version refresh fires at 0 and then every
    86,400,000 ms, whatever the configuration. *)
Lemma updateAppVersionByInterval_period (n : nat) :
  updateAppVersionByInterval (λ _, Resolved Js.Undefined) n
  = map (λ k, Next {| count := k;
                      at_ms := inject_Z (Z.of_nat k) * inject_Z 86400000 |}
                Js.Undefined)
      (seq 0 n).
Proof.
  unfold updateAppVersionByInterval, timer, APP_VERSION_REFRESH_INTERVAL.
  induction (seq 0 n) as [|k ks IH]; [done|]. simpl. by rewrite IH.
Qed.

(** C3, on the code: when the first call of [updateAppVersion] is rejected
    the rejection is the error of the timer's stream, which ends there:
    however many periods pass, no later fire is seen.  [mergeMap] is given no
    [catchError], unlike the authentication timer, which the same rejection
    leaves running. *)
Theorem C3_version_refresh_ends_on_rejection (config : Config)
    (reason : Js.Value) (n : nat) :
  updateAppVersionByInterval (rejectedAtStart reason) (S n)
  = [Failed {| count := 0; at_ms := 0 |} reason]
  ∧ length (authenticateByInterval config (rejectedAtStart reason) (S n))
    = S n.
Proof.
  split.
  - reflexivity.
  - apply authenticateByInterval_survives.
Qed.

(** ** The output of the loop *)

Lemma outputPipeline_app (es1 es2 : list Event) :
  outputPipeline (es1 ++ es2) = outputPipeline es1 ++ outputPipeline es2.
Proof.
  unfold outputPipeline.
  by rewrite List.filter_app, map_app, List.filter_app, map_app.
Qed.

Lemma outputPipeline_cons (e : Event) (es : list Event) :
  outputPipeline (e :: es) = outputPipeline [e] ++ outputPipeline es.
Proof. apply (outputPipeline_app [e] es). Qed.

Lemma outputPipeline_one (e : Event) :
  outputPipeline [e]
  = if kindIsSuccess e && Js.truthy (Js.lodashGet (eventResponse e) "items")
    then [Js.lodashGet (eventResponse e) "items"]
    else [].
Proof.
  destruct e as [response|err]; [|reflexivity].
  unfold outputPipeline. simpl.
  destruct (Js.truthy (Js.lodashGet response "items")) eqn:Htruthy;
    [|reflexivity].
  simpl. unfold Js.lodashGet in *.
  by destruct (Js.nullish response).
Qed.

(** C4, as the code has it.  A cycle emits exactly when its outcome is a
    success whose response has a truthy [items] (anything but [undefined],
    [null], [false], 0, [NaN] and the empty string), and it emits that value;
    an empty array is truthy, so it is emitted as an empty batch.  Every other
    cycle emits nothing.  The emissions of a run are those of its cycles in
    order, and every cycle, whatever its outcome, schedules a next delay. *)
Theorem C4_emission (config : Config) (cycles : list Cycle) (e : Event) :
  outputPipeline [e]
  = match e with
    | success response =>
        if Js.truthy (Js.lodashGet response "items")
        then [Js.lodashGet response "items"]
        else []
    | error _ => []
    end
  ∧ (∀ rest,
        outputPipeline [success (Js.Object (("items", Js.Array []) :: rest))]
        = [Js.Array []])
  ∧ outputPipeline [success (Js.Object [])] = []
  ∧ emitted (pollLoopWith403Backoff config cycles)
    = concat (map (λ c, outputPipeline [event c]) cycles)
  ∧ length (delays (pollLoopWith403Backoff config cycles)) = length cycles.
Proof.
  split; [|split; [|split; [|split]]].
  - rewrite outputPipeline_one. by destruct e.
  - reflexivity.
  - reflexivity.
  - unfold pollLoopWith403Backoff.
    destruct (runCycles config _ initialState cycles) as [final ds]. simpl.
    induction cycles as [|c rest IH]; [done|].
    simpl map. rewrite outputPipeline_cons, IH. reflexivity.
  - unfold pollLoopWith403Backoff.
    pose proof (runCycles_length (readBackoff config) config cycles
                  initialState) as Hlen.
    by destruct (runCycles config _ initialState cycles) as [final ds].
Qed.

(** C4 as stated fails: a successful response with an empty [items] array is
    emitted, where the claim has no emission. *)
Lemma C4_empty_items_emitted :
  outputPipeline [emptyBatch] = [Js.Array []]
  ∧ Reference.emission emptyBatch = [].
Proof. split; reflexivity. Qed.

(** ** The enable signal *)

Lemma pollFavoriteBusinesses_app (config : Config) (inner : option State)
    (pre post : list Signal) :
  pollFavoriteBusinesses config inner (pre ++ post)
  = let '(mid, effects1) := pollFavoriteBusinesses config inner pre in
    let '(final, effects2) := pollFavoriteBusinesses config mid post in
    (final, effects1 ++ effects2).
Proof.
  revert inner. induction pre as [|s pre IH]; intros inner; simpl.
  - by destruct (pollFavoriteBusinesses config inner post).
  - destruct (switchMapStep config inner s) as [inner' effects].
    rewrite IH.
    destruct (pollFavoriteBusinesses config inner' pre) as [mid effects1].
    destruct (pollFavoriteBusinesses config mid post) as [final effects2].
    by rewrite app_assoc.
Qed.

(** With no loop subscribed, completed fetches change nothing and cause
    nothing. *)
Lemma pollFavoriteBusinesses_off (config : Config) (cycles : list Cycle) :
  pollFavoriteBusinesses config None (map Fetched cycles) = (None, []).
Proof.
  induction cycles as [|c rest IH]; [done|]. simpl. by rewrite IH.
Qed.

(** C5. After any history of the enable signal and of the loop, switching on
    starts a loop whose state is new (no timestamps, [cooldownUntil = 0]) and
    whose first act is a fetch; switching off leaves no loop, and whatever
    the cancelled loop's fetches still deliver causes no emission, no
    scheduling, no fetch and no tracker update, until the signal is on
    again. *)
Theorem C5_enable_signal (config : Config) (inner : option State)
    (history : list Signal) (cycles : list Cycle) :
  pollFavoriteBusinesses config inner (history ++ [Enabled true])
  = (Some {| error403Timestamps := []; cooldownUntil := 0 |},
     snd (pollFavoriteBusinesses config inner history) ++ [Fetch])
  ∧ pollFavoriteBusinesses config inner
      (history ++ Enabled false :: map Fetched cycles)
    = (None, snd (pollFavoriteBusinesses config inner history))
  ∧ fst (pollFavoriteBusinesses config inner
           (history ++ Enabled false :: map Fetched cycles ++ [Enabled true]))
    = Some initialState.
Proof.
  split; [|split].
  - rewrite pollFavoriteBusinesses_app.
    by destruct (pollFavoriteBusinesses config inner history).
  - rewrite pollFavoriteBusinesses_app.
    destruct (pollFavoriteBusinesses config inner history) as [mid effects].
    simpl. rewrite pollFavoriteBusinesses_off. simpl. by rewrite app_nil_r.
  - rewrite pollFavoriteBusinesses_app.
    destruct (pollFavoriteBusinesses config inner history) as [mid effects].
    simpl.
    rewrite (pollFavoriteBusinesses_app config None (map Fetched cycles)).
    by rewrite pollFavoriteBusinesses_off.
Qed.

(** ** HTTP 403 classification *)

Lemma orElse_nullish (a c : Js.Value) :
  Js.nullish a = true → Js.orElse a c = c.
Proof. unfold Js.orElse. by intros ->. Qed.

Lemma orElse_defined (a c : Js.Value) :
  Js.nullish a = false → Js.orElse a c = a.
Proof. unfold Js.orElse. by intros ->. Qed.

Lemma strictEqInt_defined (v : Js.Value) (z : Z) :
  Js.strictEqInt v z = true → Js.nullish v = false.
Proof. by destruct v. Qed.

(** [a ?? b ?? c ?? d] strictly equals an integer exactly when the first of
    the four that is neither [undefined] nor [null] does. *)
Lemma coalesce_first_defined (v1 v2 v3 v4 : Js.Value) (z : Z) :
  Js.strictEqInt (Js.orElse v1 (Js.orElse v2 (Js.orElse v3 v4))) z = true
  ↔ ∃ before code after,
      [v1; v2; v3; v4] = before ++ code :: after
      ∧ Forall (λ v, Js.nullish v = true) before
      ∧ Js.strictEqInt code z = true.
Proof.
  split.
  - intros H.
    destruct (Js.nullish v1) eqn:H1;
      [rewrite (orElse_nullish _ _ H1) in H
      |rewrite (orElse_defined _ _ H1) in H;
       by exists [], v1, [v2; v3; v4]].
    destruct (Js.nullish v2) eqn:H2;
      [rewrite (orElse_nullish _ _ H2) in H
      |rewrite (orElse_defined _ _ H2) in H;
       exists [v1], v2, [v3; v4]; repeat constructor; done].
    destruct (Js.nullish v3) eqn:H3;
      [rewrite (orElse_nullish _ _ H3) in H
      |rewrite (orElse_defined _ _ H3) in H;
       exists [v1; v2], v3, [v4]; repeat constructor; done].
    exists [v1; v2; v3], v4, []. repeat constructor; done.
  - intros (before & code & after & Hsplit & Hnull & Hcode).
    pose proof (strictEqInt_defined _ _ Hcode) as Hdef.
    destruct before as [|a1 [|a2 [|a3 [|a4 more]]]];
      simpl in Hsplit; simplify_eq;
      repeat match goal with
             | H : Forall _ (_ :: _) |- _ => inversion_clear H
             end;
      unfold Js.orElse;
      repeat match goal with
             | H : Js.nullish _ = _ |- _ => rewrite H; clear H
             end;
      try done.
    by destruct more.
Qed.

(** C6, as the code has it.  An error is classified as HTTP 403 exactly when
    the first of [error.response.statusCode], [error.response.status],
    [error.statusCode], [error.status], in this order, that is neither
    [undefined] nor [null] is the number 403.  So a classified error does
    carry 403 in one of the four places. *)
Theorem C6_isHttp403_first_defined (err : Js.Value) :
  (isHttp403 err = true
   ↔ ∃ before code after,
       statusLocations err = before ++ code :: after
       ∧ Forall (λ v, Js.nullish v = true) before
       ∧ Js.strictEqInt code 403 = true)
  ∧ (isHttp403 err = true → Reference.carries403 err = true).
Proof.
  assert (Hiff := coalesce_first_defined
                    (Js.optGet (Js.optGet err "response") "statusCode")
                    (Js.optGet (Js.optGet err "response") "status")
                    (Js.optGet err "statusCode")
                    (Js.optGet err "status") 403).
  split; [exact Hiff|].
  intros H. apply Hiff in H as (before & code & after & Hsplit & _ & Hcode).
  unfold Reference.carries403. apply existsb_exists.
  exists code. split; [|done].
  unfold statusLocations. rewrite Hsplit. apply in_elt.
Qed.

Lemma C6_isHttp403_first_defined_witness :
  isHttp403 (eventErr forbidden) = true
  ∧ Reference.carries403 (eventErr forbidden) = true.
Proof.
  split; [reflexivity|].
  apply (C6_isHttp403_first_defined (eventErr forbidden)). reflexivity.
Defined.

(** C6 as stated fails: an error with 403 in [status] and 500 in
    [response.statusCode] carries 403 in one of the four places and is not
    classified as HTTP 403. *)
Lemma C6_403_shadowed :
  Reference.carries403 shadowed403 = true ∧ isHttp403 shadowed403 = false.
Proof. split; reflexivity. Qed.

(** ** The interval policy *)

Section Interval.

Local Open Scope Q_scope.

Lemma Qfloor_unit (r : Q) : 0 <= r < 1 → Qfloor r = 0%Z.
Proof.
  intros [H0 H1].
  pose proof (Qfloor_resp_le _ _ H0) as Hlo.
  pose proof (Qfloor_le r) as Hle.
  assert (Hlt : inject_Z (Qfloor r) < inject_Z 1)
    by (eapply Qle_lt_trans; eassumption).
  rewrite <- Zlt_Qlt in Hlt. change (Qfloor 0) with 0%Z in Hlo. lia.
Qed.

(** The scaled draw [Math.floor(random * n)] is an index below [n]. *)
Lemma Qfloor_scaled (r : Q) (n : Z) :
  0 <= r < 1 → (0 <= n)%Z →
  (0 <= Qfloor (r * inject_Z n))%Z
  ∧ ((0 < n)%Z → (Qfloor (r * inject_Z n) < n)%Z)
  ∧ (n = 0%Z → Qfloor (r * inject_Z n) = 0%Z).
Proof.
  intros [H0 H1] Hn.
  assert (Hn' : 0 <= inject_Z n)     by (change (inject_Z 0 <= inject_Z n); rewrite <- Zle_Qle; exact Hn).
  split; [|split].
  - change 0%Z with (Qfloor 0). apply Qfloor_resp_le.
    by apply Qmult_le_0_compat.
  - intros Hpos.
    assert (Hpos' : 0 < inject_Z n)
      by (change (inject_Z 0 < inject_Z n); rewrite <- Zlt_Qlt; exact Hpos).
    rewrite Zlt_Qlt.
    eapply Qle_lt_trans; [apply Qfloor_le|].
    apply Qlt_le_trans with (1 * inject_Z n).
    + by apply Qmult_lt_compat_r.
    + rewrite Qmult_1_l. apply Qle_refl.
  - intros ->.
    assert (Heq : r * inject_Z 0 == 0) by ring.
    by rewrite Heq.
Qed.

Lemma Qceiling_floor_gap (x : Q) :
  (Qfloor x <= Qceiling x <= Qfloor x + 1)%Z.
Proof.
  split.
  - rewrite Zle_Qle.
    eapply Qle_trans; [apply Qfloor_le|apply Qle_ceiling].
  - assert (Hlt : inject_Z (Qceiling x - 1) < inject_Z (Qfloor x + 1))
      by (eapply Qlt_trans; [apply Qceiling_lt|apply Qlt_floor]).
    rewrite <- Zlt_Qlt in Hlt. lia.
Qed.

Lemma randomIntInclusive_comp (min min' max max' random : Q) :
  min == min' → max == max' →
  randomIntInclusive min max random = randomIntInclusive min' max' random.
Proof. intros Hmin Hmax. unfold randomIntInclusive. by rewrite Hmin, Hmax. Qed.

(** With an integer between the bounds the draw lies between them. *)
Lemma randomIntInclusive_range (min max random : Q) :
  0 <= random < 1 → (Qceiling min <= Qfloor max)%Z →
  (Qceiling min <= randomIntInclusive min max random <= Qfloor max)%Z.
Proof.
  intros Hr Hne. unfold randomIntInclusive.
  destruct (Qfloor_scaled random (Qfloor max - Qceiling min + 1) Hr)
    as (Hlo & Hhi & _); [lia|].
  specialize (Hhi ltac:(lia)). lia.
Qed.

(** With no integer between [min <= max] the draw is the ceiling of [min]. *)
Lemma randomIntInclusive_degenerate (min max random : Q) :
  0 <= random < 1 → (Qfloor max - Qceiling min + 1 = 0)%Z →
  randomIntInclusive min max random = Qceiling min.
Proof.
  intros Hr Hn. unfold randomIntInclusive.
  destruct (Qfloor_scaled random (Qfloor max - Qceiling min + 1) Hr)
    as (_ & _ & Hzero); [lia|].
  rewrite (Hzero Hn). lia.
Qed.

Lemma randomIntInclusive_fixed (x random : Q) :
  0 <= random < 1 → randomIntInclusive x x random = Qceiling x.
Proof.
  intros Hr. pose proof (Qceiling_floor_gap x) as Hgap.
  destruct (Z.eq_dec (Qfloor x - Qceiling x + 1)%Z 0%Z) as [Hn|Hn].
  - by apply randomIntInclusive_degenerate.
  - pose proof (randomIntInclusive_range x x random Hr ltac:(lia)). lia.
Qed.

Lemma Qmax_floor (x : Q) :
  x <= MINIMAL_POLLING_INTERVAL → Qmax x MINIMAL_POLLING_INTERVAL == 15000.
Proof. intros H. by rewrite Q.max_r. Qed.

Lemma Qmax_above (x y : Q) : y <= x → Qmax x y == x.
Proof. intros H. by rewrite Q.max_l. Qed.

Lemma configuredBounds_both (config : Config) (min max : Q) :
  getConfiguredNumber config "api.pollingIntervalMinInMs" = Some min →
  getConfiguredNumber config "api.pollingIntervalMaxInMs" = Some max →
  configuredBounds config = (min, max).
Proof. unfold configuredBounds. by intros -> ->. Qed.

Lemma configuredBounds_legacy (config : Config) (fixed : Q) :
  getConfiguredNumber config "api.pollingIntervalMinInMs" = None →
  getConfiguredNumber config "api.pollingIntervalMaxInMs" = None →
  getConfiguredNumber config "api.pollingIntervalInMs" = Some fixed →
  configuredBounds config = (fixed, fixed).
Proof. unfold configuredBounds. by intros -> -> ->. Qed.

End Interval.

Lemma getRandomPollingIntervalInMs_clamp (config : Config) (random : Q) :
  getRandomPollingIntervalInMs config random
  = randomIntInclusive
      (Qmax (fst (configuredBounds config)) MINIMAL_POLLING_INTERVAL)
      (Qmax (snd (configuredBounds config))
         (Qmax (fst (configuredBounds config)) MINIMAL_POLLING_INTERVAL))
      random.
Proof.
  unfold getRandomPollingIntervalInMs.
  by destruct (configuredBounds config).
Qed.

(** The hard floor: no configuration brings the interval below 15000. *)
Lemma getRandomPollingIntervalInMs_floor (config : Config) (random : Q) :
  (0 <= random < 1)%Q → 15000 <= getRandomPollingIntervalInMs config random.
Proof.
  intros Hr. rewrite getRandomPollingIntervalInMs_clamp.
  set (minMs := Qmax _ MINIMAL_POLLING_INTERVAL).
  set (maxMs := Qmax _ minMs).
  assert (Hmin : 15000 <= Qceiling minMs).
  { change 15000 with (Qceiling MINIMAL_POLLING_INTERVAL).
    apply Qceiling_resp_le, Q.le_max_r. }
  assert (Hmax : Qfloor minMs <= Qfloor maxMs)
    by apply Qfloor_resp_le, Q.le_max_r.
  pose proof (Qceiling_floor_gap minMs) as Hgap.
  unfold randomIntInclusive.
  destruct (Qfloor_scaled random (Qfloor maxMs - Qceiling minMs + 1) Hr)
    as (Hlo & _ & _); lia.
Qed.

(** C7, as the code has it.  When both bounds are configured with
    [15000 <= min <= max] and an integer lies between them (as it does when
    they are integers), the interval is an integer between them.  For every
    configuration the bounds are clamped before the draw, first
    [min' = max(min, 15000)], then [max' = max(max, min')]; so the interval is
    never below 15000, and bounds that are both at most 15000 (5000 and
    10000, say) give 15000. *)
Theorem C7_interval_range (config : Config) (random : Q) :
  (∀ min max,
      getConfiguredNumber config "api.pollingIntervalMinInMs" = Some min →
      getConfiguredNumber config "api.pollingIntervalMaxInMs" = Some max →
      (min <= max)%Q → (15000 <= min)%Q →
      (∃ z : Z, (min <= inject_Z z <= max)%Q) →
      (0 <= random < 1)%Q →
      (min <= inject_Z (getRandomPollingIntervalInMs config random) <= max)%Q)
  ∧ getRandomPollingIntervalInMs config random
    = randomIntInclusive
        (Qmax (fst (configuredBounds config)) 15000)
        (Qmax (snd (configuredBounds config))
           (Qmax (fst (configuredBounds config)) 15000))
        random
  ∧ ((0 <= random < 1)%Q →
     15000 <= getRandomPollingIntervalInMs config random)
  ∧ (∀ min max,
        getConfiguredNumber config "api.pollingIntervalMinInMs" = Some min →
        getConfiguredNumber config "api.pollingIntervalMaxInMs" = Some max →
        (min <= 15000)%Q → (max <= 15000)%Q →
        (0 <= random < 1)%Q →
        getRandomPollingIntervalInMs config random = 15000).
Proof.
  split; [|split; [|split]].
  - intros min max Hmin Hmax Hle Hfloor (z & Hz1 & Hz2) Hr.
    rewrite getRandomPollingIntervalInMs_clamp,
      (configuredBounds_both config min max Hmin Hmax).
    simpl fst; simpl snd.
    assert (Hm : (Qmax min MINIMAL_POLLING_INTERVAL == min)%Q)
      by (apply Qmax_above; exact Hfloor).
    assert (HM : (Qmax max (Qmax min MINIMAL_POLLING_INTERVAL) == max)%Q)
      by (apply Qmax_above; rewrite Hm; exact Hle).
    rewrite (randomIntInclusive_comp _ min _ max random Hm HM).
    assert (Hint : Qceiling min <= Qfloor max).
    { transitivity z.
      - rewrite <- (Qceiling_Z z). by apply Qceiling_resp_le.
      - rewrite <- (Qfloor_Z z) at 1. by apply Qfloor_resp_le. }
    destruct (randomIntInclusive_range min max random Hr Hint) as [Hlo Hhi].
    split.
    + eapply Qle_trans; [apply Qle_ceiling|]. by rewrite <- Zle_Qle.
    + eapply Qle_trans; [|apply Qfloor_le]. by rewrite <- Zle_Qle.
  - apply getRandomPollingIntervalInMs_clamp.
  - apply getRandomPollingIntervalInMs_floor.
  - intros min max Hmin Hmax Hlow Hhigh Hr.
    rewrite getRandomPollingIntervalInMs_clamp,
      (configuredBounds_both config min max Hmin Hmax).
    simpl fst; simpl snd.
    assert (Hm : (Qmax min MINIMAL_POLLING_INTERVAL == 15000)%Q)
      by (apply Qmax_floor; exact Hlow).
    assert (HM : (Qmax max (Qmax min MINIMAL_POLLING_INTERVAL) == 15000)%Q)
      by (rewrite Q.max_r; [exact Hm|rewrite Hm; exact Hhigh]).
    rewrite (randomIntInclusive_comp _ 15000 _ 15000 random Hm HM).
    by rewrite randomIntInclusive_fixed.
Qed.

Lemma C7_interval_range_witness :
  (20000 <= inject_Z (getRandomPollingIntervalInMs plainBounds (1 # 2))
   <= 30000)%Q
  ∧ getRandomPollingIntervalInMs belowFloor (1 # 2) = 15000.
Proof.
  pose proof (C7_interval_range plainBounds (1 # 2)) as (Hrange & _).
  pose proof (C7_interval_range belowFloor (1 # 2)) as (_ & _ & _ & Hfixed).
  split.
  - apply (Hrange 20000%Q 30000%Q); try reflexivity.
    + unfold Qle; simpl; lia.
    + unfold Qle; simpl; lia.
    + exists 25000. split; unfold Qle; simpl; lia.
    + split; [unfold Qle|unfold Qlt]; simpl; lia.
  - apply (Hfixed 5000%Q 10000%Q); try reflexivity.
    + unfold Qle; simpl; lia.
    + unfold Qle; simpl; lia.
    + split; [unfold Qle|unfold Qlt]; simpl; lia.
Defined.

(** C7 as stated fails: with the bounds 15000.2 and 15000.8 the interval is
    15001, above the configured maximum. *)
Lemma C7_no_integer_between :
  getConfiguredNumber fractionalBounds "api.pollingIntervalMinInMs"
  = Some (75001 # 5)
  ∧ getConfiguredNumber fractionalBounds "api.pollingIntervalMaxInMs"
    = Some (75004 # 5)
  ∧ (15000 <= 75001 # 5)%Q ∧ (75001 # 5 <= 75004 # 5)%Q
  ∧ getRandomPollingIntervalInMs fractionalBounds (1 # 2) = 15001
  ∧ ¬ (inject_Z 15001 <= 75004 # 5)%Q.
Proof.
  repeat split; try reflexivity; unfold Qle; simpl; lia.
Qed.

(** C8, as the code has it.  With neither bound configured and a legacy
    interval of at least 15000, every draw gives the legacy interval rounded
    up to an integer: the legacy interval itself when it is an integer. *)
Theorem C8_legacy_fixed (config : Config) (fixed random : Q) :
  getConfiguredNumber config "api.pollingIntervalMinInMs" = None →
  getConfiguredNumber config "api.pollingIntervalMaxInMs" = None →
  getConfiguredNumber config "api.pollingIntervalInMs" = Some fixed →
  (15000 <= fixed)%Q →
  (0 <= random < 1)%Q →
  getRandomPollingIntervalInMs config random = Qceiling fixed
  ∧ (∀ z : Z, (fixed == inject_Z z)%Q →
       getRandomPollingIntervalInMs config random = z).
Proof.
  intros Hmin Hmax Hlegacy Hfloor Hr.
  assert (Hceil : getRandomPollingIntervalInMs config random = Qceiling fixed).
  { rewrite getRandomPollingIntervalInMs_clamp,
      (configuredBounds_legacy config fixed Hmin Hmax Hlegacy).
    simpl fst; simpl snd.
    assert (Hm : (Qmax fixed MINIMAL_POLLING_INTERVAL == fixed)%Q)
      by (apply Qmax_above; exact Hfloor).
    assert (HM : (Qmax fixed (Qmax fixed MINIMAL_POLLING_INTERVAL) == fixed)%Q)
      by (apply Qmax_above; rewrite Hm; apply Qle_refl).
    rewrite (randomIntInclusive_comp _ fixed _ fixed random Hm HM).
    by apply randomIntInclusive_fixed. }
  split; [exact Hceil|].
  intros z Hz. rewrite Hceil, Hz. apply Qceiling_Z.
Qed.

Lemma C8_legacy_fixed_witness :
  getRandomPollingIntervalInMs plainLegacy (1 # 2) = 60000.
Proof.
  refine (proj2 (C8_legacy_fixed plainLegacy 60000%Q (1 # 2) _ _ _ _ _)
            60000 _); try reflexivity.
  - unfold Qle; simpl; lia.
  - split; [unfold Qle|unfold Qlt]; simpl; lia.
Defined.

(** C8 as stated fails: a legacy interval of 60000.5 gives 60001. *)
Lemma C8_fractional_legacy :
  getConfiguredNumber fractionalLegacy "api.pollingIntervalMinInMs" = None
  ∧ getConfiguredNumber fractionalLegacy "api.pollingIntervalMaxInMs" = None
  ∧ getConfiguredNumber fractionalLegacy "api.pollingIntervalInMs"
    = Some (120001 # 2)
  ∧ (15000 <= 120001 # 2)%Q
  ∧ getRandomPollingIntervalInMs fractionalLegacy (1 # 2) = 60001
  ∧ ¬ (inject_Z 60001 == 120001 # 2)%Q.
Proof.
  repeat split; try reflexivity.
  - unfold Qle; simpl; lia.
  - unfold Qeq; simpl; lia.
Qed.

(** ** Reading the configuration *)

(** [Math.trunc] rounds toward zero. *)
Lemma trunc_toward_zero (q : Q) :
  ((0 <= q)%Q → Coerce.trunc q = Qfloor q)
  ∧ ((q <= 0)%Q → Coerce.trunc q = Qceiling q).
Proof.
  destruct q as [n d]. unfold Coerce.trunc, Qceiling, Qfloor, Qle. simpl.
  split; intros H.
  - apply Z.quot_div_nonneg; lia.
  - replace n with (- - n) at 1 by lia.
    rewrite Z.quot_opp_l by lia.
    f_equal. apply Z.quot_div_nonneg; lia.
Qed.

Lemma getConfiguredNumber_not_number (config : Config) (configPath : string)
    (v : Js.Value) :
  (∀ n, v ≠ Js.Number n) →
  getConfiguredNumber (<[configPath := v]> config) configPath = None.
Proof.
  intros Hv. unfold getConfiguredNumber, configGet.
  rewrite lookup_insert_eq. simpl.
  destruct v as [| | |n| | |]; try reflexivity. by destruct (Hv n).
Qed.

(** For the number readers a value that is not a number is a missing one. *)
Lemma getConfiguredNumber_as_absent (config : Config) (key : string)
    (v : Js.Value) (configPath : string) :
  (∀ n, v ≠ Js.Number n) →
  getConfiguredNumber (<[key := v]> config) configPath
  = getConfiguredNumber (delete key config) configPath.
Proof.
  intros Hv. destruct (decide (key = configPath)) as [->|Hne].
  - rewrite getConfiguredNumber_not_number by done.
    unfold getConfiguredNumber, configGet. by rewrite lookup_delete_eq.
  - unfold getConfiguredNumber, configGet.
    by rewrite lookup_insert_ne, lookup_delete_ne.
Qed.

Lemma getConfiguredInt_finite (config : Config) (configPath : string)
    (fallback : Z) (n : Q) :
  Coerce.ToNumber (configGet config configPath) = Js.Finite n →
  getConfiguredInt config configPath fallback = Coerce.trunc n.
Proof. unfold getConfiguredInt. by intros ->. Qed.

Lemma getConfiguredInt_fallback (config : Config) (configPath : string)
    (fallback : Z) :
  (∀ n, Coerce.ToNumber (configGet config configPath) ≠ Js.Finite n) →
  getConfiguredInt config configPath fallback = fallback.
Proof.
  unfold getConfiguredInt. intros H.
  destruct (Coerce.ToNumber _) as [| |n]; try reflexivity. by destruct (H n).
Qed.


(** ** Numbers from strings *)

Section RoundDouble.

Local Open Scope Q_scope.

Lemma roundHalfEven_comp (x y : Q) :
  x == y → Coerce.roundHalfEven x = Coerce.roundHalfEven y.
Proof.
  intros H. unfold Coerce.roundHalfEven.
  rewrite (Qfloor_comp x y H).
  assert (Hd : x - inject_Z (Qfloor y) == y - inject_Z (Qfloor y))
    by (rewrite H; reflexivity).
  by rewrite (Qcompare_comp _ _ Hd (1 # 2) (1 # 2) (Qeq_refl _)).
Qed.

Lemma roundHalfEven_Z (m : Z) : Coerce.roundHalfEven (inject_Z m) = m.
Proof.
  unfold Coerce.roundHalfEven. rewrite Qfloor_Z.
  assert (Hd : inject_Z m - inject_Z m == 0) by ring.
  by rewrite (Qcompare_comp _ _ Hd (1 # 2) (1 # 2) (Qeq_refl _)).
Qed.

Lemma pow2_nonneg (k : Z) : (0 <= k)%Z → Coerce.pow2 k == inject_Z (2 ^ k).
Proof. intros H. unfold Coerce.pow2. symmetry. by apply Zpower_Qpower. Qed.

(** Below 2^53 every integer is a double. *)
Lemma roundDouble_positive (n : Z) (negative : bool) :
  (0 < n < 2 ^ 53)%Z →
  Coerce.roundDouble (inject_Z (if negative then - n else n))
  = Js.Finite (inject_Z (if negative then - n else n)).
Proof.
  intros [Hpos Hlt].
  set (z := if negative then (- n)%Z else n).
  assert (Hz : Z.abs z = n) by (unfold z; destruct negative; lia).
  set (k := Z.log2 n).
  assert (Hk : (0 <= k < 53)%Z).
  { split; [apply Z.log2_nonneg|]. apply Z.log2_lt_pow2; lia. }
  assert (Hspec : (2 ^ k <= n)%Z) by (apply Z.log2_spec; lia).
  unfold Coerce.roundDouble.
  assert (Hnz : Qeq_bool (inject_Z z) 0 = false).
  { destruct (Qeq_bool (inject_Z z) 0) eqn:E; [|done].
    apply Qeq_bool_iff in E. unfold Qeq in E. simpl in E. lia. }
  rewrite Hnz.
  assert (Habs : Qabs (inject_Z z) = inject_Z n)
    by (unfold Qabs, inject_Z; by rewrite Hz).
  rewrite Habs.
  assert (Hbin : Coerce.binade (inject_Z n) = k).
  { unfold Coerce.binade. cbn [Qnum Qden inject_Z].
    change (Z.log2 1) with 0%Z. rewrite Z.sub_0_r. fold k.
    assert (Hle : Qle_bool (Coerce.pow2 k) (inject_Z n) = true).
    { apply Qle_bool_iff. rewrite pow2_nonneg by lia.
      rewrite <- Zle_Qle. exact Hspec. }
    by rewrite Hle. }
  rewrite Hbin. rewrite Z.max_l by lia.
  set (d := (2 ^ (52 - k))%Z).
  assert (Hd : (0 < d)%Z) by (unfold d; apply Z.pow_pos_nonneg; lia).
  assert (Hulp : Coerce.pow2 (k - 52) == / inject_Z d).
  { unfold d. rewrite <- pow2_nonneg by lia. unfold Coerce.pow2.
    replace (k - 52)%Z with (- (52 - k))%Z by lia. apply Qpower_opp. }
  assert (Hdnz : ~ inject_Z d == 0).
  { unfold Qeq. simpl. lia. }
  assert (Hquot : inject_Z n / Coerce.pow2 (k - 52) == inject_Z (n * d)).
  { rewrite inject_Z_mult. unfold Qdiv. rewrite Hulp.
    by rewrite Qinv_involutive. }
  rewrite (roundHalfEven_comp _ _ Hquot), roundHalfEven_Z.
  assert (Hv : inject_Z (n * d) * Coerce.pow2 (k - 52) == inject_Z n).
  { rewrite Hulp, inject_Z_mult. field. exact Hdnz. }
  assert (Hover : Qle_bool (Coerce.pow2 1024)
                    (inject_Z (n * d) * Coerce.pow2 (k - 52)) = false).
  { destruct (Qle_bool _ _) eqn:E; [|done].
    apply Qle_bool_iff in E. rewrite Hv, pow2_nonneg in E by lia.
    rewrite <- Zle_Qle in E.
    assert ((2 ^ 53 <= 2 ^ 1024)%Z) by (apply Z.pow_le_mono_r; lia). lia. }
  rewrite Hover. f_equal.
  assert (Hsign : match inject_Z z ?= 0 with Lt => true | _ => false end
                  = negative).
  { unfold Qcompare. cbn [Qnum Qden inject_Z]. rewrite Z.mul_1_r.
    unfold z. destruct negative.
    - by destruct n.
    - by destruct n. }
  rewrite Hsign.
  assert (Hres : (if negative
                  then - (inject_Z (n * d) * Coerce.pow2 (k - 52))
                  else inject_Z (n * d) * Coerce.pow2 (k - 52))
                 == inject_Z z).
  { unfold z. destruct negative; rewrite Hv; [|reflexivity].
    by rewrite inject_Z_opp. }
  rewrite (Qred_complete _ _ Hres).
  apply Qred_identity. simpl. apply Z.gcd_1_r.
Qed.

Lemma roundDouble_integer (z : Z) :
  (Z.abs z < 2 ^ 53)%Z →
  Coerce.roundDouble (inject_Z z) = Js.Finite (inject_Z z).
Proof.
  intros Hz. destruct (Z.eq_dec z 0%Z) as [->|Hnz]; [reflexivity|].
  destruct (Z.lt_ge_cases z 0%Z).
  - replace z with (- - z)%Z by lia.
    apply (roundDouble_positive (- z) true). lia.
  - apply (roundDouble_positive z false). lia.
Qed.

End RoundDouble.

(** Turns the boolean tests on bytes into facts of arithmetic. *)
Ltac bytes :=
  repeat match goal with
         | H : _ = true |- _ =>
             progress rewrite ?orb_true_iff, ?andb_true_iff, ?negb_true_iff,
               ?Z.eqb_eq, ?Z.leb_le, ?Z.ltb_lt in H
         | H : _ = false |- _ =>
             progress rewrite ?orb_false_iff, ?andb_false_iff,
               ?negb_false_iff, ?Z.eqb_neq, ?Z.leb_gt, ?Z.ltb_ge in H
         end.

Ltac bytes_false :=
  match goal with
  | |- ?b = false =>
      let E := fresh in
      destruct b eqn:E; [exfalso|reflexivity];
      unfold Coerce.isWhiteSpace1, Coerce.isWhiteSpace2, Coerce.isWhiteSpace3
        in *;
      bytes;
      intuition lia
  end.

Section Trimming.

Import Coerce.

Lemma isWhiteSpace2_bytes (c1 c2 : ascii) :
  isWhiteSpace2 c1 c2 = true →
  isWhiteSpace1 c1 = false ∧ isWhiteSpace1 c2 = false.
Proof. intros H. split; bytes_false. Qed.

Lemma isWhiteSpace3_bytes (c1 c2 c3 : ascii) :
  isWhiteSpace3 c1 c2 c3 = true →
  isWhiteSpace1 c1 = false ∧ isWhiteSpace1 c3 = false
  ∧ (∀ x, isWhiteSpace2 c1 x = false) ∧ isWhiteSpace2 c2 c3 = false.
Proof. intros H. repeat split; try intros x; bytes_false. Qed.

Lemma plain_bytes (c : ascii) :
  byte c < 128 →
  (∀ x, isWhiteSpace2 c x = false) ∧ (∀ x, isWhiteSpace2 x c = false)
  ∧ (∀ x y, isWhiteSpace3 c x y = false)
  ∧ (∀ x y, isWhiteSpace3 x y c = false).
Proof. intros H. repeat split; intros; bytes_false. Qed.

Lemma trimLeft_1 (c : ascii) (l : list ascii) :
  isWhiteSpace1 c = true → trimLeft (c :: l) = trimLeft l.
Proof. intros H. cbn [trimLeft]. by rewrite H. Qed.

Lemma trimLeft_2 (c1 c2 : ascii) (l : list ascii) :
  isWhiteSpace2 c1 c2 = true → trimLeft (c1 :: c2 :: l) = trimLeft l.
Proof.
  intros H. destruct (isWhiteSpace2_bytes c1 c2 H) as [H1 _].
  cbn [trimLeft]. by rewrite H1, H.
Qed.

Lemma trimLeft_3 (c1 c2 c3 : ascii) (l : list ascii) :
  isWhiteSpace3 c1 c2 c3 = true → trimLeft (c1 :: c2 :: c3 :: l) = trimLeft l.
Proof.
  intros H. destruct (isWhiteSpace3_bytes c1 c2 c3 H) as (H1 & _ & H2 & _).
  cbn [trimLeft]. by rewrite H1, H2, H.
Qed.

Lemma trimLeft_plain (c : ascii) (l : list ascii) :
  byte c < 128 → isWhiteSpace1 c = false → trimLeft (c :: l) = c :: l.
Proof.
  intros Hc H1. destruct (plain_bytes c Hc) as (H2 & _ & H3 & _).
  cbn [trimLeft]. rewrite H1.
  destruct l as [|c2 [|c3 l]]; [done|by rewrite H2|by rewrite H2, H3].
Qed.

Lemma trimEnd_1 (c : ascii) (l : list ascii) :
  isWhiteSpace1 c = true → trimEnd (c :: l) = trimEnd l.
Proof. intros H. cbn [trimEnd]. by rewrite H. Qed.

Lemma trimEnd_2 (c1 c2 : ascii) (l : list ascii) :
  isWhiteSpace2 c1 c2 = true → trimEnd (c2 :: c1 :: l) = trimEnd l.
Proof.
  intros H. destruct (isWhiteSpace2_bytes c1 c2 H) as [_ H2].
  cbn [trimEnd]. by rewrite H2, H.
Qed.

Lemma trimEnd_3 (c1 c2 c3 : ascii) (l : list ascii) :
  isWhiteSpace3 c1 c2 c3 = true → trimEnd (c3 :: c2 :: c1 :: l) = trimEnd l.
Proof.
  intros H. destruct (isWhiteSpace3_bytes c1 c2 c3 H) as (_ & H3 & _ & H23).
  cbn [trimEnd]. by rewrite H3, H23, H.
Qed.

Lemma trimEnd_plain (c : ascii) (l : list ascii) :
  byte c < 128 → isWhiteSpace1 c = false → trimEnd (c :: l) = c :: l.
Proof.
  intros Hc H1. destruct (plain_bytes c Hc) as (_ & H2 & _ & H3).
  cbn [trimEnd]. rewrite H1.
  destruct l as [|c2 [|c3 l]]; [done|by rewrite H2|by rewrite H2, H3].
Qed.

Lemma trimLeft_whiteSpace (pre l : list ascii) :
  whiteSpace pre → trimLeft (pre ++ l) = trimLeft l.
Proof.
  induction 1 as [|c rest H Hrest IH|c1 c2 rest H Hrest IH
                 |c1 c2 c3 rest H Hrest IH]; [done| | |]; simpl app.
  - by rewrite trimLeft_1.
  - by rewrite trimLeft_2.
  - by rewrite trimLeft_3.
Qed.

Lemma trimEnd_whiteSpace (post : list ascii) :
  whiteSpace post → ∀ l, trimEnd (rev post ++ l) = trimEnd l.
Proof.
  induction 1 as [|c rest H Hrest IH|c1 c2 rest H Hrest IH
                 |c1 c2 c3 rest H Hrest IH]; intros l; [done| | |];
    simpl rev; rewrite <- ?app_assoc; simpl app; rewrite IH.
  - by apply trimEnd_1.
  - by apply trimEnd_2.
  - by apply trimEnd_3.
Qed.

(** Trimming leaves what stands between the white space, when that starts
    and ends with an ASCII character that is not white space. *)
Lemma trim_padded (pre post front : list ascii) (first last : ascii)
    (rest : list ascii) :
  whiteSpace pre → whiteSpace post →
  first :: rest = front ++ [last] →
  byte first < 128 → isWhiteSpace1 first = false →
  byte last < 128 → isWhiteSpace1 last = false →
  trim (pre ++ (first :: rest) ++ post) = first :: rest.
Proof.
  intros Hpre Hpost Hbody Hf1 Hf2 Hl1 Hl2. unfold trim.
  rewrite (trimLeft_whiteSpace pre _ Hpre). simpl app.
  rewrite (trimLeft_plain first _ Hf1 Hf2).
  change (first :: rest ++ post) with ((first :: rest) ++ post).
  rewrite rev_app_distr, (trimEnd_whiteSpace post Hpost), Hbody.
  rewrite rev_app_distr. simpl app.
  rewrite (trimEnd_plain last _ Hl1 Hl2).
  change (last :: rev front) with (rev [last] ++ rev front).
  by rewrite <- rev_app_distr, rev_involutive.
Qed.

Lemma trimEnd_unfold (c1 : ascii) (r1 : list ascii) :
  trimEnd (c1 :: r1)
  = if isWhiteSpace1 c1 then trimEnd r1
    else match r1 with
         | [] => c1 :: r1
         | c2 :: r2 =>
             if isWhiteSpace2 c2 c1 then trimEnd r2
             else match r2 with
                  | [] => c1 :: r1
                  | c3 :: r3 =>
                      if isWhiteSpace3 c3 c2 c1 then trimEnd r3 else c1 :: r1
                  end
         end.
Proof. reflexivity. Qed.

Lemma trimEnd_keeps_last (c : ascii) :
  byte c < 128 → isWhiteSpace1 c = false →
  ∀ l, ∃ l', trimEnd (l ++ [c]) = l' ++ [c].
Proof.
  intros Hc H1. destruct (plain_bytes c Hc) as (H2 & _ & H3 & _).
  intros l. remember (length l) as n eqn:Hn. revert l Hn.
  induction n as [n IH] using lt_wf_ind. intros l Hn.
  assert (IH' : ∀ l0, (length l0 < length l)%nat →
                      ∃ l', trimEnd (l0 ++ [c]) = l' ++ [c]).
  { intros l0 Hlt. apply (IH (length l0)); [lia|reflexivity]. }
  clear IH.
  destruct l as [|a [|x [|y r3]]]; simpl app.
  - exists []. by apply trimEnd_plain.
  - rewrite trimEnd_unfold. cbv beta iota.
    destruct (isWhiteSpace1 a); [apply (IH' []); simpl; lia|].
    rewrite H2. by exists [a].
  - rewrite trimEnd_unfold. cbv beta iota.
    destruct (isWhiteSpace1 a); [apply (IH' [x]); simpl; lia|].
    destruct (isWhiteSpace2 x a); [apply (IH' []); simpl; lia|].
    rewrite H3. by exists [a; x].
  - rewrite trimEnd_unfold. cbv beta iota.
    destruct (isWhiteSpace1 a); [apply (IH' (x :: y :: r3)); simpl; lia|].
    destruct (isWhiteSpace2 x a); [apply (IH' (y :: r3)); simpl; lia|].
    destruct (isWhiteSpace3 y x a); [apply (IH' r3); simpl; lia|].
    by exists (a :: x :: y :: r3).
Qed.

(** A string whose first character after the white space is an ASCII
    character that is not white space still starts with it once trimmed. *)
Lemma trim_keeps_first (pre : list ascii) (c : ascii) (rest : list ascii) :
  whiteSpace pre → byte c < 128 → isWhiteSpace1 c = false →
  ∃ rest', trim (pre ++ c :: rest) = c :: rest'.
Proof.
  intros Hpre Hc H1. unfold trim.
  rewrite (trimLeft_whiteSpace pre _ Hpre), (trimLeft_plain c _ Hc H1).
  simpl rev.
  destruct (trimEnd_keeps_last c Hc H1 (rev rest)) as [l' Hl'].
  rewrite Hl'. exists (rev l'). by rewrite rev_app_distr.
Qed.

End Trimming.

Section NumericStrings.

Import Coerce.

Ltac not_char H :=
  apply Ascii.eqb_neq; intros ->; vm_compute in H; discriminate.

Lemma digit_plain (c : ascii) :
  isDecimalDigit c = true → byte c < 128 ∧ isWhiteSpace1 c = false.
Proof.
  intros H. unfold isDecimalDigit in H. split; [bytes; lia|bytes_false].
Qed.

Lemma digit_value (c : ascii) :
  isDecimalDigit c = true →
  digitValue c = Some (byte c - 48) ∧ byte c - 48 < 10.
Proof.
  intros H. unfold isDecimalDigit in H. unfold digitValue. fold (byte c).
  rewrite H. split; [done|]. bytes. lia.
Qed.

Lemma readDigits_decimal (digits : list ascii) :
  Forall (λ c, isDecimalDigit c = true) digits →
  ∀ acc count,
    readDigits 10 digits acc count
    = (fold_left (λ a c, a * 10 + (byte c - 48)) digits acc,
       count + Z.of_nat (length digits), []).
Proof.
  induction 1 as [|c rest Hc Hrest IH]; intros acc count; simpl.
  - by rewrite Z.add_0_r.
  - destruct (digit_value c Hc) as [-> Hlt].
    apply Z.ltb_lt in Hlt. rewrite Hlt, IH. f_equal. f_equal. lia.
Qed.

Lemma unsignedDecimal_digits (digits : list ascii) :
  digits ≠ [] → Forall (λ c, isDecimalDigit c = true) digits →
  unsignedDecimal digits = Some (inject_Z (decimalValue digits)).
Proof.
  intros Hne Hall. unfold unsignedDecimal.
  rewrite (readDigits_decimal digits Hall). fold (decimalValue digits).
  cbn [readFraction].
  assert (Hlen : (0 + Z.of_nat (length digits) + 0 =? 0) = false).
  { apply Z.eqb_neq. destruct digits; [done|]. simpl length. lia. }
  rewrite Hlen. f_equal. unfold Qmult, inject_Z. cbn.
  by rewrite Z.mul_1_r.
Qed.

Lemma digits_not_infinity (digits : list ascii) :
  Forall (λ c, isDecimalDigit c = true) digits →
  bool_decide (digits = infinityLiteral) = false.
Proof.
  intros Hall. apply bool_decide_eq_false. intros ->.
  apply Forall_cons in Hall as [H _]. vm_compute in H. discriminate.
Qed.

Lemma readSign_digits (digits : list ascii) :
  Forall (λ c, isDecimalDigit c = true) digits →
  readSign digits = (false, digits).
Proof.
  intros Hall. destruct Hall as [|c rest Hc _]; [done|].
  unfold readSign.
  assert (Ascii.eqb c "+" = false) as -> by not_char Hc.
  assert (Ascii.eqb c "-" = false) as -> by not_char Hc.
  done.
Qed.

Lemma decimalValue_nonneg (digits : list ascii) :
  Forall (λ c, isDecimalDigit c = true) digits →
  ∀ acc, 0 <= acc →
         0 <= fold_left (λ a c, a * 10 + (byte c - 48)) digits acc.
Proof.
  induction 1 as [|c rest Hc Hrest IH]; intros acc Hacc; [done|].
  simpl. apply IH. unfold isDecimalDigit in Hc. bytes. lia.
Qed.

Lemma signedDecimal_digits (s : Sign) (digits : list ascii) :
  digits ≠ [] → Forall (λ c, isDecimalDigit c = true) digits →
  decimalValue digits < 2 ^ 53 →
  signedDecimal (signChars s ++ digits)
  = Js.Finite (inject_Z (signed s (decimalValue digits))).
Proof.
  intros Hne Hall Hlt.
  assert (Hpos : 0 <= decimalValue digits)
    by (apply (decimalValue_nonneg digits Hall 0); lia).
  unfold signedDecimal.
  assert (Hsign : readSign (signChars s ++ digits)
                  = (match s with Minus => true | _ => false end, digits)).
  { destruct s; [by apply readSign_digits|done|done]. }
  rewrite Hsign, (digits_not_infinity digits Hall),
    (unsignedDecimal_digits digits Hne Hall).
  destruct s; simpl signed.
  - apply roundDouble_integer. lia.
  - apply roundDouble_integer. lia.
  - rewrite <- inject_Z_opp. apply roundDouble_integer. lia.
Qed.

Lemma radixPrefix_digits (s : Sign) (digits : list ascii) :
  Forall (λ c, isDecimalDigit c = true) digits →
  radixPrefix (signChars s ++ digits) = None.
Proof.
  intros Hall. destruct s; simpl app.
  - destruct Hall as [|z ? Hz [|p rest Hp _]]; [done|done|].
    unfold radixPrefix.
    assert (Ascii.eqb p "x" = false) as -> by not_char Hp.
    assert (Ascii.eqb p "X" = false) as -> by not_char Hp.
    assert (Ascii.eqb p "o" = false) as -> by not_char Hp.
    assert (Ascii.eqb p "O" = false) as -> by not_char Hp.
    assert (Ascii.eqb p "b" = false) as -> by not_char Hp.
    assert (Ascii.eqb p "B" = false) as -> by not_char Hp.
    simpl. by destruct (Ascii.eqb z "0").
  - by destruct digits.
  - by destruct digits.
Qed.

(** Every string of decimal digits below 2^53, with or without a sign and
    with any white space around it, reads as the number it writes. *)
Lemma StringToNumber_integer (pre post : list ascii) (s : Sign)
    (digits : list ascii) :
  whiteSpace pre → whiteSpace post →
  digits ≠ [] → Forall (λ c, isDecimalDigit c = true) digits →
  decimalValue digits < 2 ^ 53 →
  StringToNumber
    (string_of_list_ascii (pre ++ (signChars s ++ digits) ++ post))
  = Js.Finite (inject_Z (signed s (decimalValue digits))).
Proof.
  intros Hpre Hpost Hne Hall Hlt. unfold StringToNumber.
  rewrite list_ascii_of_string_of_list_ascii.
  assert (Hplain : Forall (λ c, byte c < 128 ∧ isWhiteSpace1 c = false)
                     (signChars s ++ digits)).
  { apply Forall_app. split.
    - destruct s; repeat constructor.
    - eapply Forall_impl; [exact Hall|]. intros c Hc. by apply digit_plain. }
  assert (Hbody : signChars s ++ digits ≠ []) by (by destruct s, digits).
  destruct (signChars s ++ digits) as [|first rest] eqn:Ebody; [done|].
  destruct (exists_last (l := first :: rest) ltac:(done)) as (front & last & Hlast).
  assert (Hfirst := Forall_inv Hplain).
  assert (Hend : byte last < 128 ∧ isWhiteSpace1 last = false).
  { rewrite Hlast in Hplain. apply Forall_app in Hplain as [_ Hplain].
    by apply Forall_inv in Hplain. }
  rewrite (trim_padded pre post front first last rest Hpre Hpost Hlast
             (proj1 Hfirst) (proj2 Hfirst) (proj1 Hend) (proj2 Hend)).
  rewrite <- Ebody, (radixPrefix_digits s digits Hall).
  by apply signedDecimal_digits.
Qed.

(** A string that starts, after its white space, with a character no numeric
    string starts with is no number. *)
Lemma StringToNumber_not_numeric (pre : list ascii) (c : ascii)
    (rest : list ascii) :
  whiteSpace pre → notNumericStart c = true →
  StringToNumber (string_of_list_ascii (pre ++ c :: rest)) = Js.NaN.
Proof.
  intros Hpre Hc. unfold notNumericStart in Hc.
  repeat (apply andb_prop in Hc as [Hc ?]).
  repeat match goal with
         | H : negb _ = true |- _ => apply negb_true_iff in H
         end.
  apply Z.ltb_lt in Hc.
  unfold StringToNumber. rewrite list_ascii_of_string_of_list_ascii.
  destruct (trim_keeps_first pre c rest Hpre Hc) as [rest' ->]; [done|].
  assert (Hzero : Ascii.eqb c "0" = false).
  { apply Ascii.eqb_neq. intros ->.
    match goal with H : isDecimalDigit _ = false |- _ => vm_compute in H end.
    discriminate. }
  assert (Hradix : radixPrefix (c :: rest') = None).
  { unfold radixPrefix. rewrite Hzero. by destruct rest'. }
  rewrite Hradix. unfold signedDecimal, readSign.
  repeat match goal with
         | H : Ascii.eqb c _ = false |- _ => rewrite H
         end.
  assert (Hinf : bool_decide (c :: rest' = infinityLiteral) = false).
  { apply bool_decide_eq_false. intros E. injection E as -> _.
    match goal with H : Ascii.eqb "I" "I" = false |- _ => discriminate H end. }
  rewrite Hinf.
  assert (Hread : readDigits 10 (c :: rest') 0 0 = (0, 0, c :: rest')).
  { cbn [readDigits]. unfold digitValue. fold (byte c).
    match goal with H : isDecimalDigit c = false |- _ =>
      unfold isDecimalDigit in H; rewrite H end.
    destruct ((97 <=? byte c) && (byte c <=? 102)) eqn:E1.
    - assert (Hge : (byte c - 87 <? 10) = false) by (bytes; apply Z.ltb_ge; lia).
      by rewrite Hge.
    - destruct ((65 <=? byte c) && (byte c <=? 70)) eqn:E2; [|done].
      assert (Hge : (byte c - 55 <? 10) = false) by (bytes; apply Z.ltb_ge; lia).
      by rewrite Hge. }
  unfold unsignedDecimal. rewrite Hread. unfold readFraction.
  match goal with H : Ascii.eqb c "." = false |- _ => rewrite H end.
  reflexivity.
Qed.

End NumericStrings.

Lemma getConfiguredInt_insert (config : Config) (configPath : string)
    (fallback : Z) (v : Js.Value) :
  getConfiguredInt (<[configPath := v]> config) configPath fallback
  = match Coerce.ToNumber v with
    | Js.Finite n => Coerce.trunc n
    | _ => fallback
    end.
Proof. unfold getConfiguredInt, configGet. by rewrite lookup_insert_eq. Qed.

(** C10.  The backoff settings are read through [Number(v)] and
    [Math.trunc].  A finite number is truncated toward zero (2.9 gives 2);
    a string of decimal digits below 2^53, signed or not and with any white
    space around it, gives the integer it writes ("5" gives 5), and strings
    with a fraction, an exponent or a radix prefix are read as well.  A value
    that does not coerce to a finite number gives the fallback: a missing
    key, [undefined], [NaN], an infinity, an object, an array of two or more
    elements, a string that does not start like a number, a string that
    overflows; the fallbacks of the three settings are 3, 300000 and 600000.
    The polling-interval settings take numbers only: any other value, a
    numeric string included, reads as [null], and the interval is what it
    would be with the setting removed. *)
Theorem C10_configuration_coercion (config : Config) (configPath : string)
    (fallback : Z) :
  (∀ n, Coerce.ToNumber (configGet config configPath) = Js.Finite n →
        getConfiguredInt config configPath fallback = Coerce.trunc n
        ∧ ((0 <= n)%Q → Coerce.trunc n = Qfloor n)
        ∧ ((n <= 0)%Q → Coerce.trunc n = Qceiling n))
  ∧ ((∀ n, Coerce.ToNumber (configGet config configPath) ≠ Js.Finite n) →
     getConfiguredInt config configPath fallback = fallback)
  ∧ (∀ q, getConfiguredInt (<[configPath := Js.Number (Js.Finite q)]> config)
            configPath fallback = Coerce.trunc q)
  ∧ (∀ pre post s digits,
        whiteSpace pre → whiteSpace post →
        digits ≠ [] → Forall (λ c, isDecimalDigit c = true) digits →
        decimalValue digits < 2 ^ 53 →
        getConfiguredInt
          (<[configPath :=
               Js.Str (string_of_list_ascii
                         (pre ++ (signChars s ++ digits) ++ post))]> config)
          configPath fallback
        = signed s (decimalValue digits))
  ∧ getConfiguredInt (<[configPath := Js.Str "5"]> config) configPath fallback
    = 5
  ∧ getConfiguredInt (<[configPath := Js.Number (Js.Finite (29 # 10))]> config)
      configPath fallback = 2
  ∧ getConfiguredInt
      (<[configPath := Js.Number (Js.Finite (- 29 # 10))]> config)
      configPath fallback = - 2
  ∧ getConfiguredInt (<[configPath := Js.Str "12.7"]> config) configPath
      fallback = 12
  ∧ getConfiguredInt (<[configPath := Js.Str "1e3"]> config) configPath
      fallback = 1000
  ∧ getConfiguredInt (<[configPath := Js.Str "0x1F"]> config) configPath
      fallback = 31
  ∧ getConfiguredInt
      (<[configPath :=
           Js.Str (string_of_list_ascii
                     (byteOrderMark ++ noBreakSpace ++ ["5"%char]))]> config)
      configPath fallback = 5
  ∧ getConfiguredInt (delete configPath config) configPath fallback = fallback
  ∧ (∀ v, v ∈ [Js.Undefined; Js.Number Js.NaN;
               Js.Number (Js.Infinity false); Js.Number (Js.Infinity true)] →
          getConfiguredInt (<[configPath := v]> config) configPath fallback
          = fallback)
  ∧ (∀ props, getConfiguredInt (<[configPath := Js.Object props]> config)
                configPath fallback = fallback)
  ∧ (∀ x y rest,
        getConfiguredInt (<[configPath := Js.Array (x :: y :: rest)]> config)
          configPath fallback = fallback)
  ∧ (∀ pre c rest,
        whiteSpace pre → notNumericStart c = true →
        getConfiguredInt
          (<[configPath :=
               Js.Str (string_of_list_ascii (pre ++ c :: rest))]> config)
          configPath fallback
        = fallback)
  ∧ getConfiguredInt (<[configPath := Js.Str "five"]> config) configPath
      fallback = fallback
  ∧ getConfiguredInt (<[configPath := Js.Str "1e999"]> config) configPath
      fallback = fallback
  ∧ readBackoff config
    = {| threshold := getConfiguredInt config "api.backoff403.threshold" 3;
         windowMs := getConfiguredInt config "api.backoff403.windowMs" 300000;
         cooldownMs :=
           getConfiguredInt config "api.backoff403.cooldownMs" 600000 |}
  ∧ readBackoff ∅
    = {| threshold := 3; windowMs := 300000; cooldownMs := 600000 |}
  ∧ (∀ v, (∀ n, v ≠ Js.Number n) →
          getConfiguredNumber (<[configPath := v]> config) configPath = None)
  ∧ (∀ s, getConfiguredNumber (<[configPath := Js.Str s]> config) configPath
          = None)
  ∧ (∀ v random, (∀ n, v ≠ Js.Number n) →
        getRandomPollingIntervalInMs (<[configPath := v]> config) random
        = getRandomPollingIntervalInMs (delete configPath config) random)
  ∧ Forall
      (λ code,
         getConfiguredInt
           (<[configPath :=
                Js.Str (string_of_list_ascii (code ++ ["7"%char] ++ code))]>
              config)
           configPath fallback = 7)
      whiteSpaceCodes
  ∧ Forall
      (λ s, getConfiguredInt (<[configPath := Js.Str s]> config) configPath
              fallback = fallback)
      notNumbers
  ∧ Forall
      (λ sz, getConfiguredInt (<[configPath := Js.Str (fst sz)]> config)
               configPath fallback = snd sz)
      numericStrings
  ∧ (∀ b, getConfiguredInt (<[configPath := Js.Bool b]> config) configPath
            fallback = if b then 1 else 0)
  ∧ (∀ q, getConfiguredInt
            (<[configPath := Js.Array [Js.Number (Js.Finite q)]]> config)
            configPath fallback = Coerce.trunc q)
  ∧ getConfiguredInt (<[configPath := Js.Array [Js.Str "5"]]> config)
      configPath fallback = 5.
Proof.
  repeat apply conj.
  - intros n Hn. split; [by apply getConfiguredInt_finite|].
    apply trunc_toward_zero.
  - apply getConfiguredInt_fallback.
  - intros q. by rewrite getConfiguredInt_insert.
  - intros pre post s digits Hpre Hpost Hne Hall Hlt.
    rewrite getConfiguredInt_insert. cbn [Coerce.ToNumber].
    rewrite (StringToNumber_integer pre post s digits Hpre Hpost Hne Hall Hlt).
    unfold Coerce.trunc, inject_Z. cbn [Qnum Qden]. apply Z.quot_1_r.
  - by rewrite getConfiguredInt_insert.
  - by rewrite getConfiguredInt_insert.
  - by rewrite getConfiguredInt_insert.
  - rewrite getConfiguredInt_insert. by vm_compute.
  - rewrite getConfiguredInt_insert. by vm_compute.
  - rewrite getConfiguredInt_insert. by vm_compute.
  - rewrite getConfiguredInt_insert. by vm_compute.
  - unfold getConfiguredInt, configGet. by rewrite lookup_delete_eq.
  - intros v Hv. rewrite getConfiguredInt_insert.
    repeat (apply elem_of_cons in Hv as [->|Hv]; [reflexivity|]).
    by apply elem_of_nil in Hv.
  - intros props. by rewrite getConfiguredInt_insert.
  - intros x y rest. by rewrite getConfiguredInt_insert.
  - intros pre c rest Hpre Hc.
    rewrite getConfiguredInt_insert. cbn [Coerce.ToNumber].
    by rewrite (StringToNumber_not_numeric pre c rest Hpre Hc).
  - by rewrite getConfiguredInt_insert.
  - rewrite getConfiguredInt_insert. by vm_compute.
  - reflexivity.
  - reflexivity.
  - apply getConfiguredNumber_not_number.
  - intros s. by apply getConfiguredNumber_not_number.
  - intros v random Hv.
    unfold getRandomPollingIntervalInMs, configuredBounds.
    by rewrite !(getConfiguredNumber_as_absent config configPath v) by done.
  - repeat constructor; rewrite getConfiguredInt_insert; by vm_compute.
  - repeat constructor; rewrite getConfiguredInt_insert; by vm_compute.
  - repeat constructor; rewrite getConfiguredInt_insert; by vm_compute.
  - intros b. rewrite getConfiguredInt_insert. by destruct b.
  - intros q. by rewrite getConfiguredInt_insert.
  - by rewrite getConfiguredInt_insert.
Qed.

Lemma C10_configuration_coercion_witness :
  getConfiguredInt stringSettings "api.backoff403.threshold" 3 = 5
  ∧ getConfiguredInt
      (<["api.backoff403.windowMs" :=
           Js.Str (string_of_list_ascii
                     (noBreakSpace
                      ++ (signChars Plus ++ ["4"; "2"]%char)
                      ++ [" "%char]))]> stringSettings)
      "api.backoff403.windowMs" 300000
    = 42
  ∧ getConfiguredInt
      (<["api.backoff403.cooldownMs" :=
           Js.Str (string_of_list_ascii ([] ++ "t"%char :: ["e"; "n"]%char))]>
         stringSettings)
      "api.backoff403.cooldownMs" 600000
    = 600000
  ∧ getRandomPollingIntervalInMs
      (<["api.pollingIntervalMinInMs" := Js.Str "50000"]> stringSettings) 0
    = getRandomPollingIntervalInMs
        (delete "api.pollingIntervalMinInMs" stringSettings) 0.
Proof.
  pose proof (C10_configuration_coercion stringSettings
                "api.backoff403.threshold" 3) as (Hfinite & _).
  pose proof (C10_configuration_coercion stringSettings
                "api.backoff403.windowMs" 300000)
    as (_ & _ & _ & Hdigits & _).
  pose proof (C10_configuration_coercion stringSettings
                "api.backoff403.cooldownMs" 600000)
    as (_ & _ & _ & _ & _ & _ & _ & _ & _ & _ & _ & _ & _ & _ & _
        & Hletters & _).
  pose proof (C10_configuration_coercion stringSettings
                "api.pollingIntervalMinInMs" 0)
    as (_ & _ & _ & _ & _ & _ & _ & _ & _ & _ & _ & _ & _ & _ & _ & _ & _
        & _ & _ & _ & _ & _ & Habsent & _).
  repeat apply conj.
  - destruct (Hfinite 5%Q) as [Hread _]; [vm_compute; reflexivity|].
    exact Hread.
  - apply (Hdigits noBreakSpace [" "%char] Plus ["4"; "2"]%char).
    + apply whiteSpace_2; [reflexivity|constructor].
    + apply whiteSpace_1; [reflexivity|constructor].
    + discriminate.
    + repeat constructor.
    + vm_compute. reflexivity.
  - apply (Hletters [] "t"%char ["e"; "n"]%char); [constructor|reflexivity].
  - apply Habsent. intros n. discriminate.
Defined.

(* ====================================================================== *)
(** * Further properties                                                   *)
(* ====================================================================== *)

(** ** The interval policy: every configuration *)

Section IntervalCases.

Local Open Scope Q_scope.

Lemma interval_of_bounds (config : Config) (a b random : Q) :
  configuredBounds config = (a, b) →
  getRandomPollingIntervalInMs config random
  = randomIntInclusive (Qmax a MINIMAL_POLLING_INTERVAL)
      (Qmax b (Qmax a MINIMAL_POLLING_INTERVAL)) random.
Proof. intros H. unfold getRandomPollingIntervalInMs. by rewrite H. Qed.

(** Bounds in order and above the floor: the draw lies between their
    integer parts. *)
Lemma interval_between (config : Config) (a b random : Q) :
  configuredBounds config = (a, b) →
  15000 <= a → a <= b → (Qceiling a <= Qfloor b)%Z →
  unitInterval random →
  (Qceiling a <= getRandomPollingIntervalInMs config random <= Qfloor b)%Z.
Proof.
  intros Hb Hfloor Hle Hint Hr.
  rewrite (interval_of_bounds config a b random Hb).
  assert (Hm : Qmax a MINIMAL_POLLING_INTERVAL == a)
    by (apply Qmax_above; exact Hfloor).
  assert (HM : Qmax b (Qmax a MINIMAL_POLLING_INTERVAL) == b)
    by (apply Qmax_above; rewrite Hm; exact Hle).
  rewrite (randomIntInclusive_comp _ a _ b random Hm HM).
  by apply randomIntInclusive_range.
Qed.

(** A maximum at or below the minimum: the draw is the minimum rounded
    up. *)
Lemma interval_collapsed (config : Config) (a b random : Q) :
  configuredBounds config = (a, b) →
  15000 <= a → b <= a →
  unitInterval random →
  getRandomPollingIntervalInMs config random = Qceiling a.
Proof.
  intros Hb Hfloor Hle Hr.
  rewrite (interval_of_bounds config a b random Hb).
  assert (Hm : Qmax a MINIMAL_POLLING_INTERVAL == a)
    by (apply Qmax_above; exact Hfloor).
  assert (HM : Qmax b (Qmax a MINIMAL_POLLING_INTERVAL) == a)
    by (rewrite Q.max_r; [exact Hm|rewrite Hm; exact Hle]).
  rewrite (randomIntInclusive_comp _ a _ a random Hm HM).
  by apply randomIntInclusive_fixed.
Qed.

End IntervalCases.

(** X1. With none of the three polling settings configured the interval is
    drawn between the defaults, 40000 and 120000. *)
Theorem interval_defaults (config : Config) (random : Q) :
  getConfiguredNumber config "api.pollingIntervalMinInMs" = None →
  getConfiguredNumber config "api.pollingIntervalMaxInMs" = None →
  getConfiguredNumber config "api.pollingIntervalInMs" = None →
  unitInterval random →
  40000 <= getRandomPollingIntervalInMs config random <= 120000.
Proof.
  intros Hmin Hmax Hlegacy Hr.
  apply (interval_between config DEFAULT_POLLING_MIN_MS
           DEFAULT_POLLING_MAX_MS random); try done.
  unfold configuredBounds. by rewrite Hmin, Hmax, Hlegacy.
Qed.

Lemma interval_defaults_witness :
  40000 <= getRandomPollingIntervalInMs ∅ (1 # 3) <= 120000.
Proof.
  apply (interval_defaults ∅ (1 # 3)); try reflexivity.
  split; [unfold Qle|unfold Qlt]; simpl; lia.
Defined.

(** X2. Whatever is configured, the interval lies between the clamped
    minimum rounded up and the larger of that and the clamped maximum rounded
    down. *)
Theorem interval_envelope (config : Config) (random : Q) :
  unitInterval random →
  let minMs := Qmax (fst (configuredBounds config)) MINIMAL_POLLING_INTERVAL in
  let maxMs := Qmax (snd (configuredBounds config)) minMs in
  Qceiling minMs <= getRandomPollingIntervalInMs config random
  <= Z.max (Qceiling minMs) (Qfloor maxMs).
Proof.
  intros Hr minMs maxMs.
  rewrite getRandomPollingIntervalInMs_clamp. fold minMs. fold maxMs.
  assert (Hmax : Qfloor minMs <= Qfloor maxMs)
    by apply Qfloor_resp_le, Q.le_max_r.
  pose proof (Qceiling_floor_gap minMs) as Hgap.
  unfold randomIntInclusive.
  destruct (Qfloor_scaled random (Qfloor maxMs - Qceiling minMs + 1) Hr)
    as (Hlo & Hhi & Hzero); [lia|].
  destruct (Z.eq_dec (Qfloor maxMs - Qceiling minMs + 1) 0) as [Hn|Hn].
  - rewrite (Hzero Hn). lia.
  - specialize (Hhi ltac:(lia)). lia.
Qed.

Lemma interval_envelope_witness :
  20000 <= getRandomPollingIntervalInMs plainBounds (9 # 10) <= 30000.
Proof.
  apply (interval_envelope plainBounds (9 # 10)).
  split; [unfold Qle|unfold Qlt]; simpl; lia.
Defined.

(** X3. A configured maximum at or below the configured minimum is raised to
    it: the interval is then always the minimum rounded up. *)
Theorem interval_max_below_min (config : Config) (min max random : Q) :
  getConfiguredNumber config "api.pollingIntervalMinInMs" = Some min →
  getConfiguredNumber config "api.pollingIntervalMaxInMs" = Some max →
  (15000 <= min)%Q → (max <= min)%Q →
  unitInterval random →
  getRandomPollingIntervalInMs config random = Qceiling min.
Proof.
  intros Hmin Hmax Hfloor Hle Hr.
  apply (interval_collapsed config min max random); try done.
  by apply configuredBounds_both.
Qed.

Lemma interval_max_below_min_witness :
  getRandomPollingIntervalInMs swappedBounds (9 # 10) = 50000.
Proof.
  apply (interval_max_below_min swappedBounds 50000%Q 20000%Q (9 # 10));
    try reflexivity.
  - unfold Qle; simpl; lia.
  - unfold Qle; simpl; lia.
  - split; [unfold Qle|unfold Qlt]; simpl; lia.
Defined.

(** X4. Only one bound configured: the other takes its default, 40000 or
    120000, and the legacy interval is not consulted.  A minimum between
    15000 and 120000 gives an interval from it to 120000, a larger one gives
    itself rounded up; a maximum of at least 40000 gives an interval from
    40000 to it, a smaller one gives 40000. *)
Theorem interval_one_bound (config : Config) (x random : Q) :
  unitInterval random →
  (getConfiguredNumber config "api.pollingIntervalMinInMs" = Some x →
   getConfiguredNumber config "api.pollingIntervalMaxInMs" = None →
   ((15000 <= x)%Q → (x <= 120000)%Q →
    Qceiling x <= getRandomPollingIntervalInMs config random <= 120000)
   ∧ ((120000 <= x)%Q →
      getRandomPollingIntervalInMs config random = Qceiling x))
  ∧ (getConfiguredNumber config "api.pollingIntervalMinInMs" = None →
     getConfiguredNumber config "api.pollingIntervalMaxInMs" = Some x →
     ((40000 <= x)%Q →
      40000 <= getRandomPollingIntervalInMs config random <= Qfloor x)
     ∧ ((x <= 40000)%Q →
        getRandomPollingIntervalInMs config random = 40000)).
Proof.
  intros Hr. split; intros Hmin Hmax.
  - assert (Hb : configuredBounds config = (x, DEFAULT_POLLING_MAX_MS))
      by (unfold configuredBounds; by rewrite Hmin, Hmax).
    split.
    + intros Hfloor Hle.
      apply (interval_between config x DEFAULT_POLLING_MAX_MS random);
        try done.
      change (Qfloor DEFAULT_POLLING_MAX_MS) with (Qceiling 120000%Q).
      by apply Qceiling_resp_le.
    + intros Hle.
      apply (interval_collapsed config x DEFAULT_POLLING_MAX_MS random);
        try done.
      eapply Qle_trans; [|exact Hle]. done.
  - assert (Hb : configuredBounds config = (DEFAULT_POLLING_MIN_MS, x))
      by (unfold configuredBounds; by rewrite Hmin, Hmax).
    split.
    + intros Hle.
      apply (interval_between config DEFAULT_POLLING_MIN_MS x random);
        try done.
      change (Qceiling DEFAULT_POLLING_MIN_MS) with (Qfloor 40000%Q).
      by apply Qfloor_resp_le.
    + intros Hle.
      apply (interval_collapsed config DEFAULT_POLLING_MIN_MS x random);
        done.
Qed.

Lemma interval_one_bound_witness :
  60000 <= getRandomPollingIntervalInMs onlyMin (1 # 2) <= 120000
  ∧ 40000 <= getRandomPollingIntervalInMs onlyMax (1 # 2) <= 90000.
Proof.
  assert (Hr : unitInterval (1 # 2))
    by (split; [unfold Qle|unfold Qlt]; simpl; lia).
  pose proof (interval_one_bound onlyMin 60000%Q (1 # 2) Hr) as [Hmin _].
  pose proof (interval_one_bound onlyMax 90000%Q (1 # 2) Hr) as [_ Hmax].
  split.
  - apply Hmin; try reflexivity; unfold Qle; simpl; lia.
  - apply Hmax; try reflexivity; unfold Qle; simpl; lia.
Defined.

(** X5. The legacy interval counts only when neither bound is configured:
    with a minimum or a maximum in place, setting it to anything changes
    nothing. *)
Theorem interval_legacy_ignored (config : Config) (v : Js.Value) (random : Q) :
  getConfiguredNumber config "api.pollingIntervalMinInMs" ≠ None
  ∨ getConfiguredNumber config "api.pollingIntervalMaxInMs" ≠ None →
  getRandomPollingIntervalInMs (<["api.pollingIntervalInMs" := v]> config)
    random
  = getRandomPollingIntervalInMs config random.
Proof.
  intros Hset.
  unfold getRandomPollingIntervalInMs, configuredBounds.
  assert (Hmin : getConfiguredNumber (<["api.pollingIntervalInMs" := v]> config)
                   "api.pollingIntervalMinInMs"
                 = getConfiguredNumber config "api.pollingIntervalMinInMs")
    by (unfold getConfiguredNumber, configGet; by rewrite lookup_insert_ne).
  assert (Hmax : getConfiguredNumber (<["api.pollingIntervalInMs" := v]> config)
                   "api.pollingIntervalMaxInMs"
                 = getConfiguredNumber config "api.pollingIntervalMaxInMs")
    by (unfold getConfiguredNumber, configGet; by rewrite lookup_insert_ne).
  rewrite Hmin, Hmax.
  destruct (getConfiguredNumber config "api.pollingIntervalMinInMs"),
    (getConfiguredNumber config "api.pollingIntervalMaxInMs");
    try reflexivity.
  by destruct Hset.
Qed.

Lemma interval_legacy_ignored_witness :
  getRandomPollingIntervalInMs
    (<["api.pollingIntervalInMs" := Js.num 60000]> onlyMin) (1 # 2)
  = getRandomPollingIntervalInMs onlyMin (1 # 2).
Proof.
  apply (interval_legacy_ignored onlyMin (Js.num 60000) (1 # 2)).
  left. discriminate.
Defined.

(** X6. Both ends are included: every integer from the minimum rounded up to
    the maximum rounded down is drawn for some value of [Math.random()], the
    lower end for the value 0. *)
Theorem randomIntInclusive_reaches (min max : Q) (z : Z) :
  Qceiling min <= z <= Qfloor max →
  (∃ random, unitInterval random ∧ randomIntInclusive min max random = z)
  ∧ randomIntInclusive min max 0 = Qceiling min.
Proof.
  intros [Hlo Hhi]. split.
  - set (n := Qfloor max - Qceiling min + 1).
    assert (Hn : 0 < n) by (unfold n; lia).
    exists ((z - Qceiling min) # Z.to_pos n).
    assert (Hpos : Z.pos (Z.to_pos n) = n) by (apply Z2Pos.id; exact Hn).
    split.
    + split.
      * unfold Qle. cbn [Qnum Qden]. lia.
      * unfold Qlt. cbn [Qnum Qden]. rewrite Hpos. unfold n. lia.
    + unfold randomIntInclusive. fold n.
      assert (Heq : (((z - Qceiling min) # Z.to_pos n) * inject_Z n
                     == inject_Z (z - Qceiling min))%Q).
      { unfold Qeq, Qmult, inject_Z. cbn [Qnum Qden].
        rewrite Pos2Z.inj_mul, Hpos. ring. }
      rewrite Heq, Qfloor_Z. lia.
  - unfold randomIntInclusive.
    assert (Heq : (0 * inject_Z (Qfloor max - Qceiling min + 1) == 0)%Q)
      by ring.
    by rewrite Heq.
Qed.

Lemma randomIntInclusive_reaches_witness :
  (∃ random, unitInterval random
             ∧ randomIntInclusive 20000 30000 random = 30000)
  ∧ randomIntInclusive 20000 30000 0 = 20000.
Proof.
  apply (randomIntInclusive_reaches 20000 30000 30000).
  split; vm_compute; discriminate.
Defined.

(** ** The authentication interval and the two timers *)

(** X7. The interval read by [getInterval] is never below the minimum it is
    given: a configured number at or above the minimum is kept, and anything
    that is not a number (a numeric string included) or is missing gives the
    minimum. *)
Theorem getInterval_floor (config : Config) (configPath : string)
    (minimum : Q) :
  (minimum <= getInterval config configPath minimum)%Q
  ∧ (∀ q, config !! configPath = Some (Js.Number (Js.Finite q)) →
          (minimum <= q)%Q →
          (getInterval config configPath minimum == q)%Q)
  ∧ (∀ v, (∀ n, v ≠ Js.Number n) →
          getInterval (<[configPath := v]> config) configPath minimum
          = minimum)
  ∧ getInterval (delete configPath config) configPath minimum = minimum.
Proof.
  repeat apply conj.
  - unfold getInterval.
    destruct (lodashIsFinite _); [apply Q.le_max_r|apply Qle_refl].
  - intros q Hq Hle. unfold getInterval, configGet. rewrite Hq. simpl.
    by apply Q.max_l.
  - intros v Hv. unfold getInterval, configGet.
    rewrite lookup_insert_eq. simpl.
    destruct v as [| | |n| | |]; try reflexivity. by destruct (Hv n).
  - unfold getInterval, configGet. by rewrite lookup_delete_eq.
Qed.

Lemma getInterval_floor_witness :
  (getInterval twoHours "api.authenticationIntervalInMS"
     MINIMAL_AUTHENTICATION_INTERVAL == 7200000)%Q
  ∧ getInterval
      (<["api.authenticationIntervalInMS" := Js.Str "7200000"]> twoHours)
      "api.authenticationIntervalInMS" MINIMAL_AUTHENTICATION_INTERVAL
    = MINIMAL_AUTHENTICATION_INTERVAL.
Proof.
  pose proof (getInterval_floor twoHours "api.authenticationIntervalInMS"
                MINIMAL_AUTHENTICATION_INTERVAL) as (_ & Hkept & Hother & _).
  split.
  - apply Hkept; [reflexivity|]. unfold Qle; simpl; lia.
  - apply Hother. intros n. discriminate.
Defined.

(** [retry] over [from(promise)]: each subscription sees the same settled
    promise, so the outcome is that of the promise. *)
Lemma retry_same_promise (p : Settled) (count k : nat) :
  retry count (λ _, p) k = p.
Proof.
  revert k. induction count as [|count IH]; intros k; simpl.
  - by destruct p.
  - destruct p; [reflexivity|apply IH].
Qed.

Lemma mergeMap_first_rejection (project : nat → Settled)
    (mk : nat → Fire) (reason : Js.Value) (k : nat) :
  (∀ j, count (mk j) = j) →
  ∀ s n,
    (∀ j, s <= j < s + k → ∃ value, project j = Resolved value)%nat →
    project (s + k)%nat = Rejected reason →
    (k < n)%nat →
    ∃ before,
      mergeMap project (map mk (seq s n))
      = before ++ [Failed (mk (s + k)%nat) reason]
      ∧ length before = k
      ∧ Forall (λ x, ∃ fire value, x = Next fire value) before.
Proof.
  intros Hmk. induction k as [|k IH]; intros s n Hres Hrej Hlt.
  - destruct n as [|n]; [lia|]. exists []. simpl.
    rewrite Hmk. rewrite Nat.add_0_r in Hrej. rewrite Hrej.
    by rewrite Nat.add_0_r.
  - destruct n as [|n]; [lia|]. simpl.
    destruct (Hres s ltac:(lia)) as [value Hs]. rewrite Hmk, Hs.
    destruct (IH (S s) n) as (before & Heq & Hlen & Hall).
    + intros j Hj. apply Hres. lia.
    + by replace (S s + k)%nat with (s + S k)%nat by lia.
    + lia.
    + exists (Next (mk s) value :: before).
      rewrite Heq. replace (S s + k)%nat with (s + S k)%nat by lia.
      repeat split; simpl; [by rewrite Hlen|].
      constructor; eauto.
Qed.

(** X9. The version-refresh timer ends at the first rejected call: when the
    calls of fires 0 to [k - 1] resolve and the call of fire [k] is rejected,
    the stream has [k] values and then the error, at [k] times 86,400,000 ms,
    however many more fires the period would allow. *)
Theorem updateAppVersionByInterval_first_rejection
    (updateAppVersion : nat → Settled) (reason : Js.Value) (k n : nat) :
  (∀ j, (j < k)%nat → ∃ value, updateAppVersion j = Resolved value) →
  updateAppVersion k = Rejected reason →
  (k < n)%nat →
  ∃ before,
    updateAppVersionByInterval updateAppVersion n
    = before
      ++ [Failed {| count := k;
                    at_ms := inject_Z (Z.of_nat k) * inject_Z 86400000 |}
            reason]
    ∧ length before = k
    ∧ Forall (λ x, ∃ fire value, x = Next fire value) before.
Proof.
  intros Hres Hrej Hlt.
  unfold updateAppVersionByInterval, timer.
  apply (mergeMap_first_rejection updateAppVersion
           (λ j, {| count := j;
                    at_ms := inject_Z (Z.of_nat j)
                             * APP_VERSION_REFRESH_INTERVAL |})
           reason k (λ j, eq_refl) 0%nat n); try done.
  intros j Hj. apply Hres. lia.
Qed.

Lemma updateAppVersionByInterval_first_rejection_witness :
  ∃ before,
    updateAppVersionByInterval (rejectedThird Js.Null) 5
    = before
      ++ [Failed {| count := 2;
                    at_ms := inject_Z (Z.of_nat 2) * inject_Z 86400000 |}
            Js.Null]
    ∧ length before = 2%nat
    ∧ Forall (λ x, ∃ fire value, x = Next fire value) before.
Proof.
  apply (updateAppVersionByInterval_first_rejection
           (rejectedThird Js.Null) Js.Null 2 5).
  - intros j Hj. exists Js.Undefined.
    destruct j as [|[|j]]; [reflexivity|reflexivity|lia].
  - reflexivity.
  - lia.
Defined.

(** ** [runOnce$] and the loop behind the enable signal *)

(** X10. [runOnce$] always hands the loop exactly one event and never an
    error: a success with the response when the promise of the call resolves,
    an error event with the reason when it is rejected (the resubscriptions
    of [retry(2)] see the same promise).  So a rejected fetch emits nothing
    and a resolved one emits its [items] when that is truthy. *)
Theorem runOnce_event (p : Settled) :
  runOnce p
  = match p with
    | Resolved response => success response
    | Rejected err => error err
    end
  ∧ outputPipeline [runOnce p]
    = match p with
      | Resolved response =>
          if Js.truthy (Js.lodashGet response "items")
          then [Js.lodashGet response "items"]
          else []
      | Rejected _ => []
      end.
Proof.
  assert (H : runOnce p
              = match p with
                | Resolved response => success response
                | Rejected err => error err
                end)
    by (unfold runOnce; rewrite retry_same_promise; by destruct p).
  split; [exact H|].
  rewrite H, outputPipeline_one. by destruct p.
Qed.

Lemma emittedItems_app (xs ys : list Effect) :
  emittedItems (xs ++ ys) = emittedItems xs ++ emittedItems ys.
Proof. apply flat_map_app. Qed.

Lemma scheduledDelays_app (xs ys : list Effect) :
  scheduledDelays (xs ++ ys) = scheduledDelays xs ++ scheduledDelays ys.
Proof. apply flat_map_app. Qed.

Lemma emittedItems_Emit (items : list Js.Value) :
  emittedItems (map Emit items) = items.
Proof. induction items as [|x xs IH]; [done|]. simpl. by rewrite IH. Qed.

Lemma scheduledDelays_Emit (items : list Js.Value) :
  scheduledDelays (map Emit items) = [].
Proof. by induction items. Qed.

Lemma pollFavoriteBusinesses_Fetched (config : Config) (state : State)
    (c : Cycle) (rest : list Signal) :
  pollFavoriteBusinesses config (Some state) (Fetched c :: rest)
  = (fst (pollFavoriteBusinesses config
            (Some (handleError (readBackoff config) state (event c) (now c)))
            rest),
     (map Emit (outputPipeline [event c])
      ++ [Schedule (snd (expandCallback config (readBackoff config) state c))])
     ++ snd (pollFavoriteBusinesses config
               (Some (handleError (readBackoff config) state (event c)
                        (now c)))
               rest)).
Proof.
  cbn [pollFavoriteBusinesses switchMapStep expandCallback].
  by destruct (pollFavoriteBusinesses config _ rest).
Qed.

Lemma runCycles_cons (config : Config) (b : Backoff) (state : State)
    (c : Cycle) (rest : list Cycle) :
  runCycles config b state (c :: rest)
  = (fst (runCycles config b (handleError b state (event c) (now c)) rest),
     snd (expandCallback config b state c)
     :: snd (runCycles config b (handleError b state (event c) (now c)) rest)).
Proof.
  cbn [runCycles expandCallback].
  by destruct (runCycles config b _ rest).
Qed.

(** A subscribed loop fed the completed fetches is [runCycles]. *)
Lemma subscribed_loop (config : Config) (cycles : list Cycle) :
  ∀ state,
    fst (pollFavoriteBusinesses config (Some state) (map Fetched cycles))
    = Some (fst (runCycles config (readBackoff config) state cycles))
    ∧ emittedItems
        (snd (pollFavoriteBusinesses config (Some state) (map Fetched cycles)))
      = outputPipeline (map event cycles)
    ∧ scheduledDelays
        (snd (pollFavoriteBusinesses config (Some state) (map Fetched cycles)))
      = snd (runCycles config (readBackoff config) state cycles).
Proof.
  induction cycles as [|c rest IH]; intros state; [done|].
  cbn [map]. rewrite pollFavoriteBusinesses_Fetched, runCycles_cons.
  destruct (IH (handleError (readBackoff config) state (event c) (now c)))
    as (Hfinal & Hemit & Hdelays).
  cbn [fst snd]. split; [exact Hfinal|]. split.
  - rewrite !emittedItems_app, emittedItems_Emit, Hemit.
    change (emittedItems [Schedule _]) with (@nil Js.Value).
    rewrite app_nil_r. symmetry. apply outputPipeline_cons.
  - rewrite !scheduledDelays_app, scheduledDelays_Emit, Hdelays.
    reflexivity.
Qed.

(** X11. One on-period is one run of the loop: after the signal turns on,
    whatever was there before, the completed fetches drive the loop from its
    initial state, what [poll$] emits is what the loop's pipeline emits, and
    the waits it schedules are the loop's delays, one per fetch. *)
Theorem on_period_is_loop_run (config : Config) (inner : option State)
    (cycles : list Cycle) :
  let result :=
    pollFavoriteBusinesses config inner (Enabled true :: map Fetched cycles) in
  let run := pollLoopWith403Backoff config cycles in
  fst result = Some (finalState run)
  ∧ emittedItems (snd result) = emitted run
  ∧ scheduledDelays (snd result) = delays run
  ∧ length (scheduledDelays (snd result)) = length cycles.
Proof.
  cbn [pollFavoriteBusinesses switchMapStep].
  destruct (subscribed_loop config cycles initialState)
    as (Hfinal & Hemit & Hdelays).
  pose proof (runCycles_length (readBackoff config) config cycles
                initialState) as Hlen.
  unfold pollLoopWith403Backoff.
  destruct (pollFavoriteBusinesses config _ (map Fetched cycles))
    as [final effects].
  destruct (runCycles config (readBackoff config) initialState cycles)
    as [final' ds].
  cbn [fst snd finalState emitted delays] in *.
  change (emittedItems ([Fetch] ++ effects)) with (emittedItems effects).
  change (scheduledDelays ([Fetch] ++ effects))
    with (scheduledDelays effects).
  by rewrite Hdelays.
Qed.

(** ** HTTP 403 classification: what is never classified *)

(** X12. Only a number is classified: an error that is not an object
    ([undefined], [null], a string, a number, an array) is never HTTP 403,
    and neither is an error none of whose four status places holds a finite
    number, such as one with the string "403" for its status. *)
Theorem isHttp403_needs_number (err : Js.Value) :
  ((∀ props, err ≠ Js.Object props) → isHttp403 err = false)
  ∧ (Forall (λ v, ∀ q, v ≠ Js.Number (Js.Finite q)) (statusLocations err) →
     isHttp403 err = false).
Proof.
  split.
  - intros Hnot. destruct err as [| | | | | |props]; try reflexivity.
    by destruct (Hnot props).
  - intros Hall. destruct (isHttp403 err) eqn:H403; [|reflexivity].
    apply coalesce_first_defined in H403
      as (before & code & after & Hsplit & _ & Hcode).
    assert (Hin : code ∈ statusLocations err).
    { unfold statusLocations. rewrite Hsplit. set_solver. }
    rewrite Forall_forall in Hall. specialize (Hall code Hin).
    destruct code as [| | |[| |q]| | |]; try discriminate.
    by destruct (Hall q).
Qed.

Lemma isHttp403_needs_number_witness :
  isHttp403 (Js.Str "403") = false
  ∧ isHttp403 (Js.Object [("status", Js.Str "403")]) = false.
Proof.
  pose proof (isHttp403_needs_number (Js.Str "403")) as [Hprimitive _].
  pose proof (isHttp403_needs_number (Js.Object [("status", Js.Str "403")]))
    as [_ Hstring].
  split.
  - apply Hprimitive. intros props. discriminate.
  - apply Hstring. repeat constructor; intros q; discriminate.
Defined.


(** ** The backoff tracker: windows, thresholds, bounds *)

Section TrackerCases.

Variable b : Backoff.

Lemma handleError_not_403 (state : State) (c : Cycle) :
  is403Cycle c = false → handleError b state (event c) (now c) = state.
Proof. unfold is403Cycle, handleError. by intros ->. Qed.

Lemma handleError_403 (state : State) (c : Cycle) :
  is403Cycle c = true →
  handleError b state (event c) (now c)
  = let kept := filter (λ t, (now c - t <= windowMs b)%Z)
                  (error403Timestamps state ++ [now c]) in
    if bool_decide (Z.of_nat (length kept) >= threshold b)%Z then
      {| error403Timestamps := [];
         cooldownUntil := Z.max (cooldownUntil state) (now c + cooldownMs b) |}
    else {| error403Timestamps := kept; cooldownUntil := cooldownUntil state |}.
Proof. unfold is403Cycle, handleError. by intros ->. Qed.

Lemma kept_with_now (state : State) (t : Z) :
  0 <= windowMs b →
  filter (λ x, (t - x <= windowMs b)%Z) (error403Timestamps state ++ [t])
  = filter (λ x, (t - x <= windowMs b)%Z) (error403Timestamps state) ++ [t].
Proof.
  intros Hw. rewrite filter_app. f_equal.
  rewrite filter_cons, decide_True by lia. done.
Qed.

Lemma history_invariant (state : State) (e : Event) (t : Z) :
  Z.of_nat (length (error403Timestamps state)) < Z.max 1 (threshold b) →
  Z.of_nat (length (error403Timestamps (handleError b state e t)))
  < Z.max 1 (threshold b).
Proof.
  intros Hinv. unfold handleError.
  destruct (kindIsError e && isHttp403 (eventErr e)); [|exact Hinv].
  case_bool_decide; simpl; lia.
Qed.

End TrackerCases.

(** X14. With a window that is not negative, the failure being handled
    counts itself: a 403 arms the cooldown exactly when the stored timestamps
    within the window, plus one, reach the threshold. *)
Theorem armsCooldown_counts_window (b : Backoff) (state : State) (c : Cycle) :
  0 <= windowMs b →
  armsCooldown b state c
  = is403Cycle c
    && bool_decide
         (threshold b
          <= 1 + Z.of_nat
                   (length
                      (filter (λ t, (now c - t <= windowMs b)%Z)
                         (error403Timestamps state)))).
Proof.
  intros Hw. unfold armsCooldown, is403Cycle.
  rewrite (kept_with_now b state (now c) Hw), length_app. simpl.
  f_equal. apply bool_decide_ext. lia.
Qed.

Lemma armsCooldown_counts_window_witness :
  armsCooldown (readBackoff ∅)
    {| error403Timestamps := [0; 50000]; cooldownUntil := 0 |}
    (cycleAt forbidden 100000)
  = true.
Proof.
  rewrite (armsCooldown_counts_window (readBackoff ∅)
             {| error403Timestamps := [0; 50000]; cooldownUntil := 0 |}
             (cycleAt forbidden 100000)).
  - reflexivity.
  - vm_compute. discriminate.
Defined.

(** X15. A negative window switches the backoff off: with a threshold of at
    least 1 and no stored timestamps, no run of the loop ever stores a
    timestamp or arms a cooldown, whatever the failures. *)
Theorem negative_window_never_arms (config : Config) (b : Backoff)
    (state : State) (cycles : list Cycle) :
  windowMs b < 0 → 1 <= threshold b →
  error403Timestamps state = [] →
  fst (runCycles config b state cycles) = state.
Proof.
  intros Hw Hth Hempty. induction cycles as [|c rest IH]; [done|].
  rewrite runCycles_cons. cbn [fst].
  assert (Hstep : handleError b state (event c) (now c) = state).
  { destruct (is403Cycle c) eqn:H403; [|by apply handleError_not_403].
    rewrite (handleError_403 b state c H403), Hempty. simpl.
    rewrite filter_cons, decide_False by lia. simpl.
    rewrite bool_decide_false by lia.
    destruct state. simpl in Hempty. by rewrite Hempty. }
  by rewrite Hstep.
Qed.

Lemma negative_window_never_arms_witness :
  fst (runCycles ∅ negativeWindow initialState
         [cycleAt forbidden 0; cycleAt forbidden 1; cycleAt forbidden 2;
          cycleAt forbidden 3])
  = initialState.
Proof.
  apply (negative_window_never_arms ∅ negativeWindow initialState);
    [vm_compute; reflexivity|vm_compute; discriminate|reflexivity].
Defined.

(** X16. A threshold of zero or less is reached by every count: each failure
    classified as HTTP 403 arms the cooldown and leaves no timestamps,
    whatever the window. *)
Theorem nonpositive_threshold_always_arms (b : Backoff) (state : State)
    (c : Cycle) :
  threshold b <= 0 → is403Cycle c = true →
  handleError b state (event c) (now c)
  = {| error403Timestamps := [];
       cooldownUntil := Z.max (cooldownUntil state) (now c + cooldownMs b) |}.
Proof.
  intros Hth H403. rewrite (handleError_403 b state c H403). simpl.
  rewrite bool_decide_true by lia. done.
Qed.

Lemma nonpositive_threshold_always_arms_witness :
  handleError (readBackoff nullThreshold) initialState forbidden 1000
  = {| error403Timestamps := []; cooldownUntil := 601000 |}.
Proof.
  apply (nonpositive_threshold_always_arms (readBackoff nullThreshold)
           initialState (cycleAt forbidden 1000)).
  - vm_compute. discriminate.
  - reflexivity.
Defined.

(** X17. A setting that is [null], [false], the empty string or an empty
    array coerces to 0 and is read as 0, not as the fallback.  For the
    threshold this means that every failure classified as HTTP 403 arms the
    cooldown. *)
Theorem falsy_setting_reads_zero (config : Config) (configPath : string)
    (fallback : Z) (v : Js.Value) (state : State) (c : Cycle) :
  v ∈ [Js.Null; Js.Bool false; Js.Str ""; Js.Array []] →
  (config !! configPath = Some v →
   getConfiguredInt config configPath fallback = 0)
  ∧ (config !! "api.backoff403.threshold" = Some v →
     is403Cycle c = true →
     armsCooldown (readBackoff config) state c = true).
Proof.
  intros Hv.
  assert (Hzero : ∀ path fb, config !! path = Some v →
                             getConfiguredInt config path fb = 0).
  { intros path fb Hpath. unfold getConfiguredInt, configGet.
    rewrite Hpath. simpl.
    repeat (apply elem_of_cons in Hv as [->|Hv]; [reflexivity|]).
    by apply elem_of_nil in Hv. }
  split; [apply Hzero|].
  intros Hth H403. unfold armsCooldown. fold (is403Cycle c). rewrite H403.
  simpl. apply bool_decide_eq_true.
  change (threshold (readBackoff config))
    with (getConfiguredInt config "api.backoff403.threshold" 3).
  rewrite (Hzero _ _ Hth). lia.
Qed.

Lemma falsy_setting_reads_zero_witness :
  getConfiguredInt nullThreshold "api.backoff403.threshold" 3 = 0
  ∧ armsCooldown (readBackoff nullThreshold) initialState
      (cycleAt forbidden 0) = true.
Proof.
  assert (Hv : Js.Null ∈ [Js.Null; Js.Bool false; Js.Str ""; Js.Array []])
    by apply list_elem_of_here.
  pose proof (falsy_setting_reads_zero nullThreshold
                "api.backoff403.threshold" 3 Js.Null initialState
                (cycleAt forbidden 0) Hv) as [Hread Harm].
  split; [apply Hread; reflexivity|apply Harm; reflexivity].
Defined.

(** X18. The stored history stays below the threshold: over any run of the
    loop the number of stored timestamps is less than the threshold (less
    than 1 for a threshold below 1); and after a failure classified as
    HTTP 403 every stored timestamp lies within the window of that failure
    and is an earlier stored one or the instant of the failure. *)
Theorem history_bounded (config : Config) (b : Backoff) (state : State)
    (cycles : list Cycle) (c : Cycle) :
  Z.of_nat
    (length (error403Timestamps (fst (runCycles config b initialState cycles))))
  < Z.max 1 (threshold b)
  ∧ (is403Cycle c = true →
     ∀ t, t ∈ error403Timestamps (handleError b state (event c) (now c)) →
          now c - t <= windowMs b
          ∧ (t ∈ error403Timestamps state ∨ t = now c)).
Proof.
  split.
  - assert (Hgen : ∀ s,
               Z.of_nat (length (error403Timestamps s)) < Z.max 1 (threshold b) →
               Z.of_nat
                 (length (error403Timestamps (fst (runCycles config b s cycles))))
               < Z.max 1 (threshold b)).
    { induction cycles as [|x rest IH]; intros s Hs; [exact Hs|].
      rewrite runCycles_cons. cbn [fst]. apply IH.
      by apply history_invariant. }
    apply Hgen. simpl. lia.
  - intros H403 t. rewrite (handleError_403 b state c H403). simpl.
    case_bool_decide; simpl; [by intros ?%elem_of_nil|].
    intros [Hin Hmem]%list_elem_of_filter. split; [exact Hin|].
    apply elem_of_app in Hmem as [Hmem|Hmem]; [by left|].
    right. by apply list_elem_of_singleton in Hmem.
Qed.

Lemma history_bounded_witness :
  Forall (λ t, 400000 - t <= 300000 ∧ (t ∈ [0] ∨ t = 400000))
    (error403Timestamps
       (handleError (readBackoff ∅)
          {| error403Timestamps := [0]; cooldownUntil := 0 |}
          forbidden 400000)).
Proof.
  pose proof (history_bounded ∅ (readBackoff ∅)
                {| error403Timestamps := [0]; cooldownUntil := 0 |} []
                (cycleAt forbidden 400000)) as [_ Hwithin].
  apply Forall_forall. apply Hwithin. reflexivity.
Defined.

(** ** Runs of the loop *)



Lemma few_403s_keep_cooldown (config : Config) (b : Backoff)
    (cycles : list Cycle) :
  ∀ state,
    Z.of_nat (length (error403Timestamps state))
    + Z.of_nat (length (List.filter is403Cycle cycles)) < threshold b →
    cooldownUntil (fst (runCycles config b state cycles))
    = cooldownUntil state.
Proof.
  induction cycles as [|c rest IH]; intros state Hfew; [done|].
  rewrite runCycles_cons. cbn [fst]. simpl in Hfew.
  destruct (is403Cycle c) eqn:H403.
  - simpl in Hfew.
    pose proof (length_filter (λ t, (now c - t <= windowMs b)%Z)
                  (error403Timestamps state ++ [now c])) as Hkept.
    rewrite length_app in Hkept. simpl in Hkept.
    rewrite IH; rewrite (handleError_403 b state c H403); simpl;
      rewrite bool_decide_false by lia; simpl; [done|lia].
  - rewrite (handleError_not_403 b state c H403). by apply IH.
Qed.

(** X20. It takes [threshold] failures classified as HTTP 403 to arm a
    cooldown: a run from the initial state with fewer of them, however they
    are spaced, ends with [cooldownUntil] still 0. *)
Theorem fewer_403s_never_arm (config : Config) (b : Backoff)
    (cycles : list Cycle) :
  Z.of_nat (length (List.filter is403Cycle cycles)) < threshold b →
  cooldownUntil (fst (runCycles config b initialState cycles)) = 0.
Proof.
  intros Hfew.
  by rewrite (few_403s_keep_cooldown config b cycles initialState Hfew).
Qed.

Lemma fewer_403s_never_arm_witness :
  cooldownUntil
    (fst (runCycles ∅ (readBackoff ∅) initialState
            [cycleAt forbidden 0; cycleAt serverError 10;
             cycleAt forbidden 20]))
  = 0.
Proof.
  apply (fewer_403s_never_arm ∅ (readBackoff ∅)).
  vm_compute. reflexivity.
Defined.

Lemma delays_below_cooldown (config : Config) (b : Backoff)
    (cycles : list Cycle) :
  ∀ state earlier,
    cooldownUntil state <= Z.max 0 (earlier + cooldownMs b) →
    Forall (λ c, 0 <= now c ∧ earlier <= now c) cycles →
    StronglySorted (λ c1 c2, now c1 <= now c2) cycles →
    Forall2
      (λ c d, d <= Z.max (getRandomPollingIntervalInMs config (random c))
                     (Z.max 0 (cooldownMs b)))
      cycles (snd (runCycles config b state cycles)).
Proof.
  induction cycles as [|c rest IH]; intros state earlier Hinv Hlate Hsorted;
    [constructor|].
  rewrite runCycles_cons. cbn [snd].
  apply Forall_cons in Hlate as [[Hpos Hafter] Hlate].
  apply StronglySorted_inv in Hsorted as [Hsorted Hnext].
  pose proof (handleError_cooldownUntil b state (event c) (now c)) as Hmono.
  assert (Hstep : cooldownUntil (handleError b state (event c) (now c))
                  <= Z.max 0 (now c + cooldownMs b)).
  { unfold handleError.
    destruct (kindIsError (event c) && isHttp403 (eventErr (event c)));
      [|lia].
    case_bool_decide; simpl; lia. }
  constructor.
  - unfold expandCallback. cbn [snd]. lia.
  - apply (IH _ (now c) Hstep); [|exact Hsorted].
    rewrite Forall_forall in Hlate, Hnext. apply Forall_forall.
    intros x Hx. split; [apply Hlate, Hx|apply Hnext, Hx].
Qed.

(** X21. With a clock that is not negative and does not run backwards, no
    delay of a run from the initial state exceeds the larger of its random
    interval and [cooldownMs]: the loop never waits longer than one full
    cooldown. *)
Theorem delays_at_most_cooldown (config : Config) (b : Backoff)
    (cycles : list Cycle) :
  Forall (λ c, 0 <= now c) cycles →
  StronglySorted (λ c1 c2, now c1 <= now c2) cycles →
  Forall2
    (λ c d, d <= Z.max (getRandomPollingIntervalInMs config (random c))
                   (Z.max 0 (cooldownMs b)))
    cycles (snd (runCycles config b initialState cycles)).
Proof.
  intros Hpos Hsorted.
  apply (delays_below_cooldown config b cycles initialState 0);
    [simpl; lia| |exact Hsorted].
  eapply Forall_impl; [exact Hpos|]. intros c Hc. simpl in Hc. lia.
Qed.

Lemma delays_at_most_cooldown_witness :
  Forall2
    (λ c d, d <= Z.max (getRandomPollingIntervalInMs ∅ (random c))
                   (Z.max 0 (cooldownMs (readBackoff ∅))))
    [cycleAt forbidden 0; cycleAt forbidden 50000; cycleAt forbidden 100000]
    (snd (runCycles ∅ (readBackoff ∅) initialState
            [cycleAt forbidden 0; cycleAt forbidden 50000;
             cycleAt forbidden 100000])).
Proof.
  apply (delays_at_most_cooldown ∅ (readBackoff ∅)).
  - repeat constructor; simpl; lia.
  - repeat constructor; simpl; lia.
Defined.


(** X23. The window starts afresh once a cooldown is armed: the arming
    cycle leaves no timestamps, so the cooldown it set stands until at least
    [threshold] further failures classified as HTTP 403 have come. *)
Theorem cooldown_stands_after_arming (config : Config) (b : Backoff)
    (state : State) (c : Cycle) (later : list Cycle) :
  armsCooldown b state c = true →
  Z.of_nat (length (List.filter is403Cycle later)) < threshold b →
  cooldownUntil (fst (runCycles config b state (c :: later)))
  = Z.max (cooldownUntil state) (now c + cooldownMs b).
Proof.
  intros Harm Hfew. rewrite runCycles_cons. cbn [fst].
  assert (Hstep : handleError b state (event c) (now c)
                  = {| error403Timestamps := [];
                       cooldownUntil :=
                         Z.max (cooldownUntil state) (now c + cooldownMs b) |}).
  { unfold armsCooldown in Harm. apply andb_prop in Harm as [H403 Hcount].
    unfold handleError. by rewrite H403, Hcount. }
  rewrite Hstep.
  rewrite few_403s_keep_cooldown; [reflexivity|]. simpl. lia.
Qed.

Lemma cooldown_stands_after_arming_witness :
  cooldownUntil
    (fst (runCycles ∅ (readBackoff ∅)
            {| error403Timestamps := [0; 50000]; cooldownUntil := 0 |}
            (cycleAt forbidden 100000
             :: [cycleAt forbidden 150000; cycleAt forbidden 200000])))
  = 700000.
Proof.
  rewrite (cooldown_stands_after_arming ∅ (readBackoff ∅)
             {| error403Timestamps := [0; 50000]; cooldownUntil := 0 |}
             (cycleAt forbidden 100000)
             [cycleAt forbidden 150000; cycleAt forbidden 200000]).
  - vm_compute. reflexivity.
  - vm_compute. reflexivity.
  - vm_compute. reflexivity.
Defined.

(** ** The waits of Node's timers *)

Lemma timerWait_integer (d : Z) :
  (1 <= d <= TIMEOUT_MAX → timerWait (inject_Z d) = d)
  ∧ (TIMEOUT_MAX < d → timerWait (inject_Z d) = 1).
Proof.
  unfold timerWait. split; intros H.
  - assert (Qle_bool 1 (inject_Z d) = true) as ->
      by (apply Qle_bool_iff; change 1%Q with (inject_Z 1);
          rewrite <- Zle_Qle; lia).
    assert (Qle_bool (inject_Z d) (inject_Z TIMEOUT_MAX) = true) as ->
      by (apply Qle_bool_iff; rewrite <- Zle_Qle; lia).
    unfold Coerce.trunc, inject_Z. cbn [Qnum Qden andb]. apply Z.quot_1_r.
  - assert (Qle_bool (inject_Z d) (inject_Z TIMEOUT_MAX) = false) as ->.
    { destruct (Qle_bool _ _) eqn:E; [|done].
      apply Qle_bool_iff in E. rewrite <- Zle_Qle in E. lia. }
    by rewrite andb_false_r.
Qed.

Lemma timerWait_rational (q : Q) :
  (1 <= q)%Q →
  ((q <= inject_Z TIMEOUT_MAX)%Q → timerWait q = Qfloor q)
  ∧ ((inject_Z TIMEOUT_MAX < q)%Q → timerWait q = 1).
Proof.
  intros H1. unfold timerWait.
  assert (Qle_bool 1 q = true) as -> by (by apply Qle_bool_iff).
  split; intros H.
  - assert (Qle_bool q (inject_Z TIMEOUT_MAX) = true) as ->
      by (by apply Qle_bool_iff).
    cbn [andb]. apply trunc_toward_zero.
    eapply Qle_trans; [|exact H1]. done.
  - assert (Qle_bool q (inject_Z TIMEOUT_MAX) = false) as ->.
    { destruct (Qle_bool _ _) eqn:E; [|done].
      apply Qle_bool_iff in E. by apply Qle_not_lt in E. }
    done.
Qed.

Lemma authenticate_on_node_values (login : nat → Settled) (mk : nat → Fire)
    (ks : list nat) :
  (∀ k, count (mk k) = k) →
  (∀ k reason, k ∈ ks → login k = Rejected reason →
               logErrorThrows reason = false) →
  mergeMap (λ k, catchErrorLogErrorOrThrow (retry 2 (λ _, login k) 0))
    (map mk ks)
  = map (λ k, Next (mk k)
                match login k with
                | Resolved value => value
                | Rejected _ => Js.Null
                end) ks.
Proof.
  intros Hmk. induction ks as [|k ks IH]; intros Hlog; [done|].
  simpl map. unfold mergeMap; fold mergeMap.
  rewrite Hmk, retry_same_promise, IH by set_solver.
  destruct (login k) as [value|reason] eqn:Ek; [done|].
  unfold catchErrorLogErrorOrThrow.
  by rewrite (Hlog k reason ltac:(set_solver) Ek).
Qed.

(** X8. While [logError] returns for every rejected login, the authentication
    timer never fails and never stops: its first [n] fires give exactly [n]
    values, the value of the login when it resolves and [null] when it is
    rejected, fire [k] at [k] times the wait the timer makes for the
    authentication interval.  That wait is the interval in whole
    milliseconds, at least 3600000, when the interval is at most 2147483647,
    and 1 ms when it is larger.  A rejection for which [logError] raises
    ends the stream with that error. *)
Theorem authenticateByInterval_on_node (config : Config)
    (login : nat → Settled) (n : nat) :
  let period :=
    getInterval config "api.authenticationIntervalInMS"
      MINIMAL_AUTHENTICATION_INTERVAL in
  ((∀ k reason, (k < n)%nat → login k = Rejected reason →
                logErrorThrows reason = false) →
   authenticateByIntervalOnNode config login n
   = map (λ k,
            Next {| count := k;
                    at_ms := inject_Z (Z.of_nat k)
                             * inject_Z (timerWait period) |}
              match login k with
              | Resolved value => value
              | Rejected _ => Js.Null
              end)
       (seq 0 n))
  ∧ ((period <= inject_Z TIMEOUT_MAX)%Q →
     timerWait period = Qfloor period ∧ 3600000 <= timerWait period)
  ∧ ((inject_Z TIMEOUT_MAX < period)%Q → timerWait period = 1)
  ∧ (∀ reason, login 0%nat = Rejected reason →
               logErrorThrows reason = true →
               authenticateByIntervalOnNode config login (S n)
               = [Failed {| count := 0;
                            at_ms := inject_Z 0 * inject_Z (timerWait period) |}
                    typeError]).
Proof.
  intros period.
  assert (Hfloor : (MINIMAL_AUTHENTICATION_INTERVAL <= period)%Q).
  { unfold period, getInterval.
    destruct (lodashIsFinite _); [apply Q.le_max_r|apply Qle_refl]. }
  assert (Hone : (1 <= period)%Q) by (eapply Qle_trans; [|exact Hfloor]; done).
  destruct (timerWait_rational period Hone) as [Hin Hout].
  repeat apply conj.
  - intros Hlog. unfold authenticateByIntervalOnNode, timer. fold period.
    apply (authenticate_on_node_values login
             (λ k, {| count := k;
                      at_ms := inject_Z (Z.of_nat k)
                               * inject_Z (timerWait period) |}));
      [done|].
    intros k reason Hk. apply Hlog. apply elem_of_seq in Hk. lia.
  - intros Hle. split; [by apply Hin|]. rewrite (Hin Hle).
    change 3600000 with (Qfloor MINIMAL_AUTHENTICATION_INTERVAL).
    by apply Qfloor_resp_le.
  - exact Hout.
  - intros reason Hlogin Hthrows.
    unfold authenticateByIntervalOnNode, timer. fold period.
    simpl map. unfold mergeMap. simpl count.
    rewrite retry_same_promise, Hlogin. unfold catchErrorLogErrorOrThrow.
    by rewrite Hthrows.
Qed.

Lemma authenticateByInterval_on_node_witness :
  authenticateByIntervalOnNode hugeAuthentication (rejectedAtStart Js.Null) 3
  = map (λ k,
           Next {| count := k;
                   at_ms := inject_Z (Z.of_nat k)
                            * inject_Z
                                (timerWait
                                   (getInterval hugeAuthentication
                                      "api.authenticationIntervalInMS"
                                      MINIMAL_AUTHENTICATION_INTERVAL)) |}
             match rejectedAtStart Js.Null k with
             | Resolved value => value
             | Rejected _ => Js.Null
             end)
      (seq 0 3)
  ∧ timerWait
      (getInterval hugeAuthentication "api.authenticationIntervalInMS"
         MINIMAL_AUTHENTICATION_INTERVAL)
    = 1
  ∧ timerWait
      (getInterval twoHours "api.authenticationIntervalInMS"
         MINIMAL_AUTHENTICATION_INTERVAL)
    = 7200000.
Proof.
  pose proof (authenticateByInterval_on_node hugeAuthentication
                (rejectedAtStart Js.Null) 3) as (Hvalues & _ & Hhuge & _).
  pose proof (authenticateByInterval_on_node twoHours
                (rejectedAtStart Js.Null) 3) as (_ & Hplain & _).
  repeat apply conj.
  - apply Hvalues. intros k reason Hk Hrejected.
    destruct k; [|discriminate]. by injection Hrejected as <-.
  - apply Hhuge. vm_compute. reflexivity.
  - destruct Hplain as [-> _]; [vm_compute; discriminate|reflexivity].
Defined.

(** ** The tick of the older version *)

Lemma pollTickFrom_gaps (config : Config) (randoms : list Q) :
  ∀ at_ms i a b,
    pollTickFrom config at_ms randoms !! i = Some a →
    pollTickFrom config at_ms randoms !! S i = Some b →
    ∃ random, randoms !! i = Some random
              ∧ b - a
                = timerWait
                    (inject_Z (getRandomPollingIntervalInMs config random)).
Proof.
  induction randoms as [|random rest IH]; intros at_ms i a b Ha Hb.
  - by destruct i.
  - destruct i as [|i].
    + simpl in Ha, Hb. injection Ha as <-.
      exists random. split; [done|].
      destruct rest; simpl in Hb; injection Hb as <-; lia.
    + simpl in Ha, Hb. apply (IH _ _ _ _ Ha Hb).
Qed.

(** X13. The tick of the older version fires once more for each random
    interval drawn, and consecutive ticks are apart by the wait the timer
    makes for the interval: the interval itself, hence at least 15000 ms,
    when the interval is at most 2147483647, and 1 ms when it is larger. *)
Theorem pollTick_gaps (config : Config) (at_ms : Z) (randoms : list Q) :
  Forall unitInterval randoms →
  pollTickFrom config at_ms randoms !! 0%nat = Some at_ms
  ∧ length (pollTickFrom config at_ms randoms) = S (length randoms)
  ∧ ∀ i a b,
      pollTickFrom config at_ms randoms !! i = Some a →
      pollTickFrom config at_ms randoms !! S i = Some b →
      ∃ random,
        randoms !! i = Some random
        ∧ (getRandomPollingIntervalInMs config random <= TIMEOUT_MAX →
           b - a = getRandomPollingIntervalInMs config random
           ∧ 15000 <= b - a)
        ∧ (TIMEOUT_MAX < getRandomPollingIntervalInMs config random →
           b - a = 1).
Proof.
  intros Hr. repeat apply conj.
  - by destruct randoms.
  - clear Hr. revert at_ms.
    induction randoms as [|random rest IH]; intros at_ms; [done|].
    simpl. by rewrite IH.
  - intros i a b Ha Hb.
    destruct (pollTickFrom_gaps config randoms at_ms i a b Ha Hb)
      as (random & Hi & Hgap).
    exists random. split; [exact Hi|].
    assert (Hunit : unitInterval random).
    { rewrite Forall_forall in Hr. apply Hr.
      by apply list_elem_of_lookup_2 in Hi. }
    pose proof (getRandomPollingIntervalInMs_floor config random Hunit).
    destruct (timerWait_integer (getRandomPollingIntervalInMs config random))
      as [Hin Hout].
    split; intros Hsize.
    + rewrite Hgap, Hin by lia. lia.
    + by rewrite Hgap, Hout.
Qed.

Lemma pollTick_gaps_witness :
  pollTickFrom ∅ 0 [0; 1 # 2]%Q = [0; 40000; 120000]
  ∧ pollTickFrom hugeMinimum 0 [0; 1 # 2]%Q = [0; 1; 2]
  ∧ length (pollTickFrom ∅ 0 [0; 1 # 2]%Q) = 3%nat.
Proof.
  assert (Hr : Forall unitInterval [0; 1 # 2]%Q).
  { repeat constructor; simpl; unfold Qle, Qlt; simpl; lia. }
  pose proof (pollTick_gaps ∅ 0 [0; 1 # 2]%Q Hr) as (_ & Hlen & _).
  repeat apply conj; [vm_compute; reflexivity|vm_compute; reflexivity|].
  exact Hlen.
Defined.

(** X22. Every delay the loop computes is at least the hard floor of
    15000 ms, whatever the configuration, the state and the outcomes.  The
    wait the timer makes for it is the delay itself, hence at least
    15000 ms, when the delay is at most 2147483647, and 1 ms when it is
    larger. *)
Theorem delays_at_least_floor (config : Config) (b : Backoff) (state : State)
    (cycles : list Cycle) :
  Forall (λ c, unitInterval (random c)) cycles →
  Forall (λ d, 15000 <= d
               ∧ (d <= TIMEOUT_MAX →
                  timerWait (inject_Z d) = d
                  ∧ 15000 <= timerWait (inject_Z d))
               ∧ (TIMEOUT_MAX < d → timerWait (inject_Z d) = 1))
    (snd (runCycles config b state cycles)).
Proof.
  intros Hr. revert state.
  induction Hr as [|c rest Hc Hrest IH]; intros state; [constructor|].
  rewrite runCycles_cons. cbn [snd]. constructor; [|apply IH].
  set (d := snd (expandCallback config b state c)).
  assert (Hd : 15000 <= d).
  { unfold d, expandCallback. cbn [snd].
    pose proof (getRandomPollingIntervalInMs_floor config (random c) Hc).
    lia. }
  destruct (timerWait_integer d) as [Hin Hout].
  split; [exact Hd|]. split; [|exact Hout].
  intros Hle. rewrite Hin by lia. lia.
Qed.

Lemma delays_at_least_floor_witness :
  Forall (λ d, 15000 <= d
               ∧ (d <= TIMEOUT_MAX →
                  timerWait (inject_Z d) = d
                  ∧ 15000 <= timerWait (inject_Z d))
               ∧ (TIMEOUT_MAX < d → timerWait (inject_Z d) = 1))
    (snd (runCycles hugeMinimum (readBackoff hugeMinimum) initialState
            [cycleAt forbidden 0; cycleAt (success Js.Null) 20000]))
  ∧ snd (runCycles hugeMinimum (readBackoff hugeMinimum) initialState
           [cycleAt forbidden 0; cycleAt (success Js.Null) 20000])
    = [3000000000; 3000000000]
  ∧ timerWait (inject_Z 3000000000) = 1.
Proof.
  repeat apply conj.
  - apply (delays_at_least_floor hugeMinimum (readBackoff hugeMinimum)
             initialState).
    repeat constructor; simpl; unfold Qle, Qlt; simpl; lia.
  - vm_compute. reflexivity.
  - reflexivity.
Defined.
